(** * Conversation context store and transcript parser of [bot.py]

    A shallow embedding of the four pure-data functions of the bot:
    [get_context], [add_to_context], [clear_user_context] (the context
    store, a dictionary from user id to transcript text) and
    [parse_context_to_messages] (the transcript parser), together with the
    Python string primitives they call ([str.strip], [str.split],
    [str.startswith], [str.replace]).  The handlers built on them
    ([get_llm_response], [handle_message], [start], [clear_context_command],
    [error_handler]) follow further down, with the outside they talk to
    made explicit.

    Conventions.
    - A Python [str] is a sequence of Unicode code points: it is modelled
      as [list N], one number per code point.  Literals of the source are
      written with [py "..."]; the newline character is [NL].
    - The global dictionary [user_contexts] is a [gmap Z (list N)] that is
      passed in and returned explicitly.  The lock [context_lock] makes each
      of the three store functions one atomic step, which is what a state
      passing function is; the [logger.info] call of [clear_user_context]
      writes to the log only and is left out. *)

From Stdlib Require Import NArith ZArith QArith Ascii String List Lia.
From stdpp Require Import base option list gmap.

#[local] Open Scope N_scope.
#[local] Open Scope list_scope.

(** ** Python strings *)

(** A source literal, character by character. *)
Definition py (s : string) : list N :=
  List.map N_of_ascii (list_ascii_of_string s).

(** The line feed, written [\n] in the source. *)
Definition NL : N := 10.

(** [Py_UNICODE_ISSPACE]: the code points that [str.strip] removes when it is
    called without an argument. *)
Definition isspace (c : N) : bool :=
  ((0x09 <=? c) && (c <=? 0x0D)) || ((0x1C <=? c) && (c <=? 0x20))
  || (c =? 0x85) || (c =? 0xA0) || (c =? 0x1680)
  || ((0x2000 <=? c) && (c <=? 0x200A))
  || (c =? 0x2028) || (c =? 0x2029) || (c =? 0x202F) || (c =? 0x205F)
  || (c =? 0x3000).

Fixpoint lstrip (s : list N) : list N :=
  match s with
  | [] => []
  | c :: s' => if isspace c then lstrip s' else s
  end.

Definition rstrip (s : list N) : list N := rev (lstrip (rev s)).

(** [s.strip()] *)
Definition strip (s : list N) : list N := rstrip (lstrip s).

(** [s.startswith(p)] *)
Fixpoint startswith (p s : list N) : bool :=
  match p, s with
  | [], _ => true
  | _ :: _, [] => false
  | a :: p', b :: s' => (a =? b) && startswith p' s'
  end.

(** Truth value of a string: [not s] holds exactly for the empty string. *)
Definition is_empty (s : list N) : bool :=
  match s with [] => true | _ :: _ => false end.

(** [maxsplit] of [str.split]: [None] is the default (no limit). *)
Definition can_split (maxsplit : option nat) : bool :=
  match maxsplit with Some O => false | _ => true end.

Definition one_less (maxsplit : option nat) : option nat :=
  match maxsplit with Some n => Some (Nat.pred n) | None => None end.

(** Puts one more character in front of the piece being read. *)
Definition push (c : N) (pieces : list (list N)) : list (list N) :=
  match pieces with
  | [] => [[c]]
  | p :: ps => (c :: p) :: ps
  end.

(** [s.split(sep, maxsplit)] for a non-empty [sep]: the string is scanned
    from the left, every occurrence of [sep] found ends a piece and the scan
    resumes behind it, until [maxsplit] cuts have been made.  [skip] counts
    the characters of a separator just found that are still to be passed. *)
Fixpoint split_from (sep : list N) (maxsplit : option nat) (skip : nat)
    (s : list N) : list (list N) :=
  match s with
  | [] => [[]]
  | c :: s' =>
      match skip with
      | S k => split_from sep maxsplit k s'
      | O =>
          if can_split maxsplit && startswith sep s
          then [] :: split_from sep (one_less maxsplit) (Nat.pred (length sep)) s'
          else push c (split_from sep maxsplit 0 s')
      end
  end.

Definition split (sep : list N) (maxsplit : option nat) (s : list N)
  : list (list N) :=
  split_from sep maxsplit 0 s.

(** [s.replace(old, new)] for a non-empty [old]: every occurrence, found from
    the left without overlap, is replaced. *)
Fixpoint replace_from (old new : list N) (skip : nat) (s : list N) : list N :=
  match s with
  | [] => []
  | c :: s' =>
      match skip with
      | S k => replace_from old new k s'
      | O =>
          if startswith old s
          then new ++ replace_from old new (Nat.pred (length old)) s'
          else c :: replace_from old new 0 s'
      end
  end.

Definition replace (old new s : list N) : list N := replace_from old new 0 s.

(** ** The context store *)

(** [if user_id not in user_contexts: user_contexts[user_id] = ""] *)
Definition ensure_entry (user_id : Z) (user_contexts : gmap Z (list N))
  : gmap Z (list N) :=
  match user_contexts !! user_id with
  | Some _ => user_contexts
  | None => <[user_id := []]> user_contexts
  end.

(** [get_context]: the returned text and the table after the call. *)
Definition get_context (user_id : Z) (user_contexts : gmap Z (list N))
  : list N * gmap Z (list N) :=
  let user_contexts := ensure_entry user_id user_contexts in
  (user_contexts !!! user_id, user_contexts).

(** The text of the f-string [f"role: {role}\n{content}\n\n"]. *)
Definition block_text (role content : list N) : list N :=
  py "role: " ++ role ++ [NL] ++ content ++ [NL; NL].

(** [add_to_context]: the table after the call (the function returns
    [None]). *)
Definition add_to_context (user_id : Z) (role content : list N)
    (user_contexts : gmap Z (list N)) : gmap Z (list N) :=
  let user_contexts := ensure_entry user_id user_contexts in
  <[user_id := (user_contexts !!! user_id) ++ block_text role content]>
    user_contexts.

(** [clear_user_context]: the returned flag and the table after the call. *)
Definition clear_user_context (user_id : Z) (user_contexts : gmap Z (list N))
  : bool * gmap Z (list N) :=
  match user_contexts !! user_id with
  | Some _ => (true, <[user_id := []]> user_contexts)
  | None => (false, user_contexts)
  end.

(** ** The transcript parser *)

(** The dictionary [{"role": role, "content": content}]. *)
Record message := Message { role : list N; content : list N }.

(** The body of the [for block in blocks] loop, as a step on [messages]. *)
Definition parse_block (messages : list message) (block : list N)
  : list message :=
  if is_empty (strip block) then messages
  else
    let lines := split [NL] (Some 1%nat) (strip block) in
    if (2 <=? length lines)%nat then
      let role_line := nth 0 lines [] in
      let content := if (1 <? length lines)%nat then nth 1 lines [] else [] in
      if startswith (py "role: ") role_line then
        let role := strip (replace (py "role: ") [] role_line) in
        if bool_decide (role ∈ [py "user"; py "assistant"])
        then messages ++ [Message role content]
        else messages
      else messages
    else messages.

Definition parse_context_to_messages (context_string : list N)
  : list message :=
  let messages := [] in
  if is_empty (strip context_string) then messages
  else
    let blocks := split [NL; NL] None (strip context_string) in
    fold_left parse_block blocks messages.

(** ** Vocabulary of the statements *)

(** [sep in s]: the separator occurs somewhere in the string. *)
Fixpoint occurs (sep s : list N) : bool :=
  startswith sep s
  || match s with [] => false | _ :: s' => occurs sep s' end.

(** [sep.join(pieces)] *)
Fixpoint join (sep : list N) (pieces : list (list N)) : list N :=
  match pieces with
  | [] => []
  | p :: ps =>
      match ps with
      | [] => p
      | _ :: _ => p ++ sep ++ join sep ps
      end
  end.

(** A string has no trailing whitespace when its last character, if it has
    one, is not a whitespace character. *)
Definition no_trailing_space (s : list N) : Prop :=
  forall c, last s = Some c -> isspace c = false.

(** The two role tags the parser lets through. *)
Definition recognized_roles : list (list N) := [py "user"; py "assistant"].

(** The role tag as the parser computes it from a header line:
    [role_line.replace("role: ", "").strip()]. *)
Definition role_tag (role_line : list N) : list N :=
  strip (replace (py "role: ") [] role_line).

(** The blocks the parser iterates over:
    [context_string.strip().split("\n\n")]. *)
Definition blocks_of (context_string : list N) : list (list N) :=
  split [NL; NL] None (strip context_string).

(** The role tag as the specification words it: what is left of the header
    line behind its prefix ["role: "], with surrounding whitespace trimmed.
    It is compared with [role_tag] below. *)
Definition role_tag_after_prefix (role_line : list N) : list N :=
  strip (drop (length (py "role: ")) role_line).


(** A conversation record (role, content) and its three renderings: the
    text [add_to_context] writes for it, that text without the separator,
    and the dictionary the parser is to give back. *)
Definition record_text (rc : list N * list N) : list N :=
  block_text (fst rc) (snd rc).

Definition record_block (rc : list N * list N) : list N :=
  py "role: " ++ fst rc ++ [NL] ++ snd rc.

Definition record_message (rc : list N * list N) : message :=
  Message (fst rc) (snd rc).

(** [add_to_context] called for each record in order. *)
Definition add_all (user_id : Z) (records : list (list N * list N))
    (user_contexts : gmap Z (list N)) : gmap Z (list N) :=
  fold_left (fun t rc => add_to_context user_id (fst rc) (snd rc) t)
            records user_contexts.

(** The records of the round-trip property as it is stated: a recognized
    role, and a non-empty content without the block separator in it. *)
Definition claimed_record (rc : list N * list N) : Prop :=
  fst rc ∈ recognized_roles /\ snd rc <> []
  /\ occurs [NL; NL] (snd rc) = false.

(** The records that do come back: moreover the content does not start with
    a newline and does not end with whitespace. *)
Definition round_trip_record (rc : list N * list N) : Prop :=
  claimed_record rc /\ head (snd rc) <> Some NL
  /\ no_trailing_space (snd rc).

(** A transcript is well formed when it is made of complete blocks only:
    nothing, or a well-formed transcript followed by one block, which is a
    header line [role: <tag>] (the tag has no newline in it), a newline, the
    content, and the blank-line separator. *)
Inductive well_formed : list N -> Prop :=
| wf_empty : well_formed []
| wf_block (blob tag content : list N) :
    NL ∉ tag -> well_formed blob ->
    well_formed (blob ++ block_text tag content).

(** Every entry of the table holds a well-formed transcript. *)
Definition well_formed_table (user_contexts : gmap Z (list N)) : Prop :=
  forall user_id blob,
    user_contexts !! user_id = Some blob -> well_formed blob.

(** The calls the rest of the bot makes on the four functions, and what
    each returns. *)
Inductive call :=
| GetContext (user_id : Z)
| AddToContext (user_id : Z) (role content : list N)
| ClearUserContext (user_id : Z)
| ParseContextToMessages (context_string : list N).

Inductive result :=
| Text (s : list N)
| NoResult
| Flag (b : bool)
| Messages (l : list message).

Definition exec (c : call) (user_contexts : gmap Z (list N))
  : result * gmap Z (list N) :=
  match c with
  | GetContext user_id =>
      let '(s, t) := get_context user_id user_contexts in (Text s, t)
  | AddToContext user_id role content =>
      (NoResult, add_to_context user_id role content user_contexts)
  | ClearUserContext user_id =>
      let '(b, t) := clear_user_context user_id user_contexts in (Flag b, t)
  | ParseContextToMessages context_string =>
      (Messages (parse_context_to_messages context_string), user_contexts)
  end.

(** The table after a sequence of calls. *)
Definition run (calls : list call) (user_contexts : gmap Z (list N))
  : gmap Z (list N) :=
  fold_left (fun t c => snd (exec c t)) calls user_contexts.

(** ** The parser as a call

    [parse_context_to_messages] builds its result in a list object,
    [messages = []], that it fills with [messages.append] and returns.  Here
    the objects are explicit: a world is the table [user_contexts] and the
    list objects alive, a reference to a list is its index, and a new list
    is put behind the others.  Strings are immutable and are passed as
    values, as are [blocks] and [lines], which are not changed once made. *)

Record world := World {
  table : gmap Z (list N);
  lists : list (list message)
}.

(** [[]]: a new list object. *)
Definition new_list (w : world) : nat * world :=
  (length (lists w), World (table w) (lists w ++ [[]])).

(** [l.append(m)] *)
Definition list_append (l : nat) (m : message) (w : world) : world :=
  World (table w) (alter (fun ms => ms ++ [m]) l (lists w)).

(** The body of the [for block in blocks] loop, [messages] being the
    reference held by the local variable. *)
Definition parse_block_call (messages : nat) (w : world) (block : list N)
  : world :=
  if is_empty (strip block) then w
  else
    let lines := split [NL] (Some 1%nat) (strip block) in
    if (2 <=? length lines)%nat then
      let role_line := nth 0 lines [] in
      let content := if (1 <? length lines)%nat then nth 1 lines [] else [] in
      if startswith (py "role: ") role_line then
        let role := strip (replace (py "role: ") [] role_line) in
        if bool_decide (role ∈ [py "user"; py "assistant"])
        then list_append messages (Message role content) w
        else w
      else w
    else w.

(** A call of [parse_context_to_messages]: the reference returned and the
    world after the call. *)
Definition parse_context_to_messages_call (context_string : list N)
    (w : world) : nat * world :=
  let '(messages, w) := new_list w in
  if is_empty (strip context_string) then (messages, w)
  else
    let blocks := split [NL; NL] None (strip context_string) in
    (messages, fold_left (parse_block_call messages) blocks w).

(** ** The handlers

    The functions of [bot.py] that call the store and the parser.  What they
    exchange with the outside is made explicit:
    - the text a handler passes to [reply_text] is returned ([None] when the
      handler is left by an exception before it replies);
    - the HTTP exchange of [get_llm_response] ([requests.post],
      [raise_for_status], [response.json()] and the subscriptions of the
      result) is the argument [post]: for the dictionary posted it tells
      whether these steps gave a reply text or raised, and the dictionary
      posted is returned along with the text;
    - [send_action], the one awaited call between the two writes of
      [handle_message], may raise: [typing_ok] tells whether it did not.
    Log lines are left out.  The [Application] is built without concurrent
    updates, so a handler runs to its end before the next one starts. *)

(** Source literals outside ASCII: the code points of a UTF-8 byte
    sequence. *)
Fixpoint utf8 (bytes : list N) : list N :=
  match bytes with
  | [] => []
  | b0 :: rest =>
      if b0 <? 0x80 then b0 :: utf8 rest
      else
        match rest with
        | [] => []
        | b1 :: rest1 =>
            if b0 <? 0xE0
            then ((b0 - 0xC0) * 0x40 + (b1 - 0x80)) :: utf8 rest1
            else
              match rest1 with
              | [] => []
              | b2 :: rest2 =>
                  if b0 <? 0xF0
                  then ((b0 - 0xE0) * 0x1000 + (b1 - 0x80) * 0x40
                        + (b2 - 0x80)) :: utf8 rest2
                  else
                    match rest2 with
                    | [] => []
                    | b3 :: rest3 =>
                        ((b0 - 0xF0) * 0x40000 + (b1 - 0x80) * 0x1000
                         + (b2 - 0x80) * 0x40 + (b3 - 0x80)) :: utf8 rest3
                    end
              end
        end
  end.

Definition text (s : string) : list N := utf8 (py s).

Definition MODEL_NAME : list N := py "qwen2.5-1.5b-instruct".

(** The dictionary [payload] of [get_llm_response]; the temperature is the
    decimal number of the source literal. *)
Record payload := Payload {
  model : list N;
  full_messages : list message;
  temperature : Q;
  max_tokens : Z;
  stream : bool
}.

(** An exception raised by the HTTP exchange, as the [except] clauses see
    it: whether it is a [requests.exceptions.ConnectionError], and whether it
    is a [requests.exceptions.Timeout]. *)
Record exception := Exception {
  is_connection_error : bool;
  is_timeout : bool
}.

(** What the HTTP exchange comes to: the text
    [result['choices'][0]['message']['content']], or an exception. *)
Inductive outcome :=
| Returned (reply : list N)
| Raised (e : exception).

Definition system_message : message :=
  Message (py "system")
    (text "Ты - ассистент с отличной памятью. "
     ++ text "ВАЖНО: Внимательно запоминай информацию, которую сообщает пользователь, "
     ++ text "и используй её в своих ответах. "
     ++ text "Отвечай на русском языке.").

(** The dictionary that [get_llm_response] posts for a context string. *)
Definition llm_request (context_string : list N) : payload :=
  let messages := parse_context_to_messages context_string in
  let full_messages := [system_message] ++ messages in
  Payload MODEL_NAME full_messages (7 # 10)%Q (-1)%Z false.

(** [get_llm_response]: the dictionary posted and the text returned. *)
Definition get_llm_response (post : payload -> outcome)
    (context_string : list N) (user_id : Z) : payload * list N :=
  let payload := llm_request context_string in
  (payload,
   match post payload with
   | Returned reply => reply
   | Raised e =>
       if is_connection_error e
       then text "Не удалось подключиться к LM Studio. Убедитесь, что сервер запущен."
       else if is_timeout e
       then text "Превышено время ожидания ответа."
       else text "Произошла ошибка при генерации ответа."
   end).

(** [start]: the welcome text and the table after the call. *)
Definition start (user_id : Z) (user_name : list N)
    (user_contexts : gmap Z (list N)) : list N * gmap Z (list N) :=
  let user_contexts := snd (clear_user_context user_id user_contexts) in
  let welcome_text :=
    text "Привет, " ++ user_name ++ text "!" ++ [NL; NL]
    ++ text "Я бот с поддержкой контекста диалога." ++ [NL]
    ++ text "Я помню нашу беседу и могу отвечать с учетом предыдущих сообщений."
    ++ [NL; NL]
    ++ text "Доступные команды:" ++ [NL]
    ++ text "/start - начать диалог заново" ++ [NL]
    ++ text "/clear - очистить историю диалога" ++ [NL; NL]
    ++ text "Просто напишите мне сообщение!" in
  (welcome_text, user_contexts).

(** [clear_context_command]: the confirmation and the table after the
    call. *)
Definition clear_context_command (user_id : Z) (user_name : list N)
    (user_contexts : gmap Z (list N)) : list N * gmap Z (list N) :=
  let user_contexts := snd (clear_user_context user_id user_contexts) in
  (text "История диалога очищена. Начинаем новый разговор!", user_contexts).

(** What one call of [handle_message] does outside the table: the
    dictionary posted, if the call got that far, and the text replied. *)
Record exchange := Exchange {
  posted : option payload;
  replied : option (list N)
}.

(** [handle_message] *)
Definition handle_message (typing_ok : bool) (post : payload -> outcome)
    (user_id : Z) (user_message : list N) (user_contexts : gmap Z (list N))
  : exchange * gmap Z (list N) :=
  let user_contexts :=
    add_to_context user_id (py "user") user_message user_contexts in
  let '(context_string, user_contexts) := get_context user_id user_contexts in
  if typing_ok then
    let '(payload, llm_response) :=
      get_llm_response post context_string user_id in
    let user_contexts :=
      add_to_context user_id (py "assistant") llm_response user_contexts in
    (Exchange (Some payload) (Some llm_response), user_contexts)
  else (Exchange None None, user_contexts).

(** [error_handler]: the text replied, when the update has a message to
    reply to. *)
Definition error_handler (has_effective_message : bool) : option (list N) :=
  if has_effective_message
  then Some (text "Произошла ошибка. Попробуйте ещё раз или используйте /clear.")
  else None.

(** The updates the handlers registered in [main] are called for: the
    commands [/start] and [/clear], and a text message that is no command,
    with what the outside does during its handling. *)
Inductive update :=
| StartCommand (user_id : Z) (user_name : list N)
| ClearCommand (user_id : Z) (user_name : list N)
| TextMessage (user_id : Z) (user_name : list N) (user_message : list N)
    (typing_ok : bool) (post : payload -> outcome).

(** One update handled: the text replied and the table afterwards.  An
    exception that leaves [handle_message] is answered by
    [error_handler]. *)
Definition dispatch (upd : update) (user_contexts : gmap Z (list N))
  : option (list N) * gmap Z (list N) :=
  match upd with
  | StartCommand user_id user_name =>
      let '(reply, t) := start user_id user_name user_contexts in
      (Some reply, t)
  | ClearCommand user_id user_name =>
      let '(reply, t) := clear_context_command user_id user_name user_contexts in
      (Some reply, t)
  | TextMessage user_id user_name user_message typing_ok post =>
      let '(x, t) :=
        handle_message typing_ok post user_id user_message user_contexts in
      (match replied x with
       | Some reply => Some reply
       | None => error_handler true
       end, t)
  end.

(** The table after a sequence of updates. *)
Definition process (updates : list update) (user_contexts : gmap Z (list N))
  : gmap Z (list N) :=
  fold_left (fun t upd => snd (dispatch upd t)) updates user_contexts.

(** The user of an update. *)
Definition update_user (upd : update) : Z :=
  match upd with
  | StartCommand user_id _ => user_id
  | ClearCommand user_id _ => user_id
  | TextMessage user_id _ _ _ _ => user_id
  end.

(** A text that comes back from the parser as it was written: not empty,
    without the block separator, not starting with a newline and not ending
    with whitespace. *)
Definition clean_text (c : list N) : Prop :=
  c <> [] /\ occurs [NL; NL] c = false /\ head c <> Some NL
  /\ no_trailing_space c.

(** A run of exchanges: each record is a [user] record, or an [assistant]
    record right behind a [user] record. *)
Fixpoint exchanges (after_user : bool) (records : list (list N * list N))
  : bool :=
  match records with
  | [] => true
  | rc :: rest =>
      if bool_decide (fst rc = py "user") then exchanges true rest
      else if bool_decide (fst rc = py "assistant")
           then after_user && exchanges false rest
           else false
  end.

(** The messages of a parsed transcript as (role, content) pairs. *)
Definition roles_and_contents (messages : list message)
  : list (list N * list N) :=
  List.map (fun m => (role m, content m)) messages.

(** An update under which the conversation of [u] stays readable: any
    command, any update of another user, or a text message of [u] that is
    clean and is answered by clean replies. *)
Definition clean_update (u : Z) (upd : update) : Prop :=
  match upd with
  | TextMessage user_id _ user_message _ post =>
      user_id = u ->
      clean_text user_message
      /\ (forall p r, post p = Returned r -> clean_text r)
  | _ => True
  end.

(** The text a user sends with an update, if the update is a text message
    of that user. *)
Definition sent_by (u : Z) (upd : update) : list (list N) :=
  match upd with
  | TextMessage user_id _ user_message _ _ =>
      if bool_decide (user_id = u) then [user_message] else []
  | _ => []
  end.

(** An update that keeps the conversation of [u] readable: an update of
    another user, or a text message of [u] that is clean and is answered by
    clean replies. *)
Definition keeps_conversation (u : Z) (upd : update) : Prop :=
  match upd with
  | StartCommand user_id _ => user_id <> u
  | ClearCommand user_id _ => user_id <> u
  | TextMessage user_id _ user_message _ post =>
      user_id = u ->
      clean_text user_message
      /\ (forall p r, post p = Returned r -> clean_text r)
  end.

(** The contents of the messages with role [user], in order. *)
Definition user_contents (messages : list message) : list (list N) :=
  List.map content
    (List.filter (fun m => bool_decide (role m = py "user")) messages).

(** ** The functions on the scenarios of the specification *)

Example scenario_hello :
  let t0 : gmap Z (list N) := ∅ in
  let t1 := add_to_context 42 (py "user") (py "Hello") t0 in
  let t2 := add_to_context 42 (py "assistant") (py "Hi there") t1 in
  parse_context_to_messages (fst (get_context 42 t2))
  = [Message (py "user") (py "Hello");
     Message (py "assistant") (py "Hi there")].
Proof. vm_compute. reflexivity. Qed.

Example scenario_untouched :
  fst (get_context 7 (∅ : gmap Z (list N))) = []
  /\ parse_context_to_messages [] = []
  /\ fst (clear_user_context 7 (∅ : gmap Z (list N))) = false.
Proof. vm_compute. auto. Qed.

Example split_examples :
  split [NL; NL] None (py "a" ++ [NL; NL; NL] ++ py "b")
    = [py "a"; NL :: py "b"]
  /\ split [NL; NL] None (py "a" ++ [NL; NL]) = [py "a"; []]
  /\ split [NL] (Some 1%nat) (py "a" ++ [NL] ++ py "b" ++ [NL] ++ py "c")
    = [py "a"; py "b" ++ [NL] ++ py "c"]
  /\ replace (py "aa") (py "b") (py "aaa") = py "ba".
Proof. vm_compute. auto. Qed.

(** ** Properties of the string primitives *)

Section Strip.

Lemma lstrip_keeps (c : N) (s : list N) :
  isspace c = false -> lstrip (c :: s) = c :: s.
Proof. intros Hc. simpl. now rewrite Hc. Qed.

Lemma lstrip_head (s : list N) :
  forall c, head (lstrip s) = Some c -> isspace c = false.
Proof.
  induction s as [|a s IH]; intros c; simpl; [discriminate|].
  destruct (isspace a) eqn:Ha; [apply IH|].
  simpl. intros [= <-]. exact Ha.
Qed.

Lemma lstrip_is_suffix (s : list N) : lstrip s `suffix_of` s.
Proof.
  induction s as [|a s IH]; simpl; [done|].
  destruct (isspace a); [|done].
  now apply suffix_cons_r.
Qed.

Lemma last_rev_head (s : list N) : last s = head (rev s).
Proof.
  rewrite <- (rev_involutive s) at 1.
  destruct (rev s) as [|a t]; [done|].
  simpl. now rewrite last_snoc.
Qed.

Lemma rstrip_no_trailing (s : list N) : no_trailing_space (rstrip s).
Proof.
  intros c. unfold rstrip. rewrite last_rev_head, rev_involutive.
  apply lstrip_head.
Qed.

Lemma rstrip_is_prefix (s : list N) : rstrip s `prefix_of` s.
Proof.
  unfold rstrip. destruct (lstrip_is_suffix (rev s)) as [w Hw].
  exists (rev w).
  rewrite <- (rev_involutive s), Hw at 1.
  now rewrite rev_app_distr.
Qed.

Lemma rstrip_snoc_keeps (s : list N) (c : N) :
  isspace c = false -> rstrip (s ++ [c]) = s ++ [c].
Proof.
  intros Hc. unfold rstrip. rewrite rev_app_distr. simpl.
  rewrite Hc. simpl. now rewrite rev_involutive.
Qed.

Lemma rstrip_snoc_drops (s : list N) (c : N) :
  isspace c = true -> rstrip (s ++ [c]) = rstrip s.
Proof.
  intros Hc. unfold rstrip. rewrite rev_app_distr. simpl.
  now rewrite Hc.
Qed.

Lemma rstrip_fixed (s : list N) : no_trailing_space s -> rstrip s = s.
Proof.
  destruct s as [|a t] using rev_ind; [done|].
  intros H. apply rstrip_snoc_keeps, H, last_snoc.
Qed.

Lemma strip_no_trailing (s : list N) : no_trailing_space (strip s).
Proof. apply rstrip_no_trailing. Qed.

(** A string that starts and ends with characters other than whitespace is
    left as it is. *)
Lemma strip_fixed (c : N) (s : list N) :
  isspace c = false -> no_trailing_space (c :: s) -> strip (c :: s) = c :: s.
Proof.
  intros Hc Hs. unfold strip. rewrite lstrip_keeps by done.
  now apply rstrip_fixed.
Qed.

Lemma no_trailing_space_app (s t : list N) :
  t <> [] -> no_trailing_space t -> no_trailing_space (s ++ t).
Proof.
  intros Hne Ht c. rewrite last_app.
  destruct (last t) as [d|] eqn:Hd.
  - intros [= <-]. now apply Ht.
  - apply last_None in Hd. contradiction.
Qed.

Lemma no_trailing_space_suffix (s t : list N) :
  t <> [] -> no_trailing_space (s ++ t) -> no_trailing_space t.
Proof.
  intros Hne Hst c Hc. apply Hst. rewrite last_app. now rewrite Hc.
Qed.

End Strip.

Section Split.

Lemma startswith_prefix (p s : list N) :
  startswith p s = true <-> p `prefix_of` s.
Proof.
  revert s. induction p as [|a p IH]; intros s; simpl.
  - split; [intros _; apply prefix_nil | done].
  - destruct s as [|b s].
    + split; [done | intros H; now apply prefix_nil_inv in H].
    + rewrite andb_true_iff, N.eqb_eq, IH. split.
      * intros [-> H]. now apply prefix_cons.
      * intros H. split; [now apply prefix_cons_inv_1 in H|].
        now apply prefix_cons_inv_2 in H.
Qed.

Lemma startswith_app (p s : list N) : startswith p (p ++ s) = true.
Proof. apply startswith_prefix. now exists s. Qed.

(** Only the first [length p] characters matter. *)
Lemma startswith_app_long (p u v : list N) :
  (length p <= length u)%nat -> startswith p (u ++ v) = startswith p u.
Proof.
  revert u. induction p as [|a p IH]; intros u Hlen; [done|].
  destruct u as [|b u]; simpl in *; [lia|].
  rewrite IH by lia. reflexivity.
Qed.

Lemma occurs_cons (sep : list N) (c : N) (s : list N) :
  occurs sep (c :: s) = startswith sep (c :: s) || occurs sep s.
Proof. reflexivity. Qed.

Lemma occurs_single (x : N) (s : list N) :
  occurs [x] s = false <-> x ∉ s.
Proof.
  induction s as [|c s IH]; simpl.
  - split; [intros _; apply not_elem_of_nil | done].
  - rewrite andb_true_r, orb_false_iff, IH, not_elem_of_cons, N.eqb_neq.
    reflexivity.
Qed.

(** An occurrence in a string is an occurrence in any extension of it. *)
Lemma occurs_app_false (sep s s' : list N) :
  occurs sep (s ++ s') = false -> occurs sep s = false.
Proof.
  induction s as [|c s IH].
  - destruct sep; [|done]. now destruct s'.
  - simpl app. rewrite !occurs_cons, !orb_false_iff.
    intros [Hc Hs]. split; [|now apply IH].
    destruct (startswith sep (c :: s)) eqn:Hpre; [|done].
    apply startswith_prefix in Hpre.
    rewrite <- Hc. symmetry. apply startswith_prefix.
    change (c :: s ++ s') with ((c :: s) ++ s').
    now apply prefix_app_r.
Qed.

Lemma split_from_skip (sep : list N) (n : option nat) (k : nat) (s : list N) :
  split_from sep n k s = split sep n (drop k s).
Proof.
  unfold split. revert k. induction s as [|c s IH]; intros k.
  - now destruct k.
  - destruct k as [|k]; [done|]. simpl. apply IH.
Qed.

(** One step of the scan. *)
Lemma split_cons (sep : list N) (n : option nat) (c : N) (s : list N) :
  split sep n (c :: s) =
    if can_split n && startswith sep (c :: s)
    then [] :: split sep (one_less n) (drop (Nat.pred (length sep)) s)
    else push c (split sep n s).
Proof.
  unfold split at 1. simpl split_from.
  now rewrite split_from_skip.
Qed.

Lemma split_nonempty (sep : list N) (n : option nat) (s : list N) :
  split sep n s <> [].
Proof.
  revert n. induction s as [|c s IH]; intros n; [done|].
  rewrite split_cons. destruct (_ && _); [done|].
  specialize (IH n). now destruct (split sep n s).
Qed.

(** With no cut left the string is returned whole. *)
Lemma split_no_cut (sep s : list N) : split sep (Some 0%nat) s = [s].
Proof.
  induction s as [|c s IH]; [done|].
  rewrite split_cons. simpl. now rewrite IH.
Qed.

(** A string in which the separator does not occur is returned whole. *)
Lemma split_absent (sep : list N) (n : option nat) (s : list N) :
  occurs sep s = false -> split sep n s = [s].
Proof.
  induction s as [|c s IH]; [done|].
  rewrite occurs_cons, orb_false_iff. intros [Hc Hs].
  rewrite split_cons, Hc, andb_false_r, IH by done. reflexivity.
Qed.

(** The first cut is made at the first occurrence of the separator: when
    no occurrence starts inside [p], the first piece is [p]. *)
Lemma split_first (sep0 : list N) (z : N) (n : option nat)
    (p rest : list N) :
  can_split n = true ->
  occurs (sep0 ++ [z]) (p ++ sep0) = false ->
  split (sep0 ++ [z]) n (p ++ (sep0 ++ [z]) ++ rest)
  = p :: split (sep0 ++ [z]) (one_less n) rest.
Proof.
  intros Hn. induction p as [|x p IH]; intros Hocc.
  - simpl app at 2.
    destruct (sep0 ++ [z]) as [|a sep'] eqn:Hsep.
    { now destruct sep0. }
    simpl app. rewrite split_cons, Hn. simpl andb.
    change (a :: sep' ++ rest) with ((a :: sep') ++ rest).
    rewrite startswith_app. simpl length. simpl Nat.pred.
    rewrite ?N.eqb_refl. simpl andb. cbv iota.
    now rewrite drop_app_length.
  - simpl app in Hocc. rewrite occurs_cons, orb_false_iff in Hocc.
    destruct Hocc as [Hx Hp].
    simpl app. rewrite split_cons.
    replace (startswith (sep0 ++ [z]) (x :: p ++ (sep0 ++ [z]) ++ rest))
      with false.
    + rewrite andb_false_r, IH by done. reflexivity.
    + rewrite <- Hx.
      change (x :: p ++ (sep0 ++ [z]) ++ rest)
        with ((x :: p) ++ (sep0 ++ [z]) ++ rest).
      rewrite <- (app_assoc sep0), (app_assoc (x :: p)).
      symmetry. apply startswith_app_long.
      simpl length. rewrite !length_app. simpl length. lia.
Qed.

Lemma join_cons (sep p : list N) (ps : list (list N)) :
  ps <> [] -> join sep (p :: ps) = p ++ sep ++ join sep ps.
Proof. now destruct ps. Qed.

Lemma join_push (sep : list N) (c : N) (ps : list (list N)) :
  ps <> [] -> join sep (push c ps) = c :: join sep ps.
Proof. intros H. destruct ps as [|p [|q ps]]; done. Qed.

(** Joining the pieces with the separator gives the string back. *)
Lemma join_split (sep : list N) (n : option nat) (s : list N) :
  sep <> [] -> join sep (split sep n s) = s.
Proof.
  intros Hsep. remember (length s) as m eqn:Hm.
  revert n s Hm. induction m as [m IH] using lt_wf_ind. intros n s ->.
  destruct s as [|c s]; [done|].
  rewrite split_cons.
  destruct (can_split n && startswith sep (c :: s)) eqn:Hcut.
  - apply andb_true_iff in Hcut as [_ Hpre].
    apply startswith_prefix in Hpre as [t Ht].
    destruct sep as [|a sep]; [done|].
    simpl in Ht. injection Ht as -> ->.
    simpl length. simpl Nat.pred. rewrite drop_app_length.
    rewrite join_cons by apply split_nonempty.
    rewrite (IH (length t)) with (s := t); [done| |done].
    simpl. rewrite length_app. lia.
  - rewrite join_push by apply split_nonempty.
    rewrite (IH (length s)) with (s := s); [done|simpl; lia|done].
Qed.

(** [split(x, 1)] for a one-character separator: either [x] is absent and
    the string comes back alone, or the string is cut at its first [x]. *)
Lemma split_line_spec (x : N) (s : list N) :
  ((x ∉ s) /\ split [x] (Some 1%nat) s = [s])
  \/ (exists h r, s = h ++ x :: r /\ (x ∉ h)
                  /\ split [x] (Some 1%nat) s = [h; r]).
Proof.
  destruct (decide (x ∈ s)) as [Hin|Hout].
  - right. apply list_elem_of_split_l in Hin as (h & r & -> & Hh).
    exists h, r. repeat split; [done|].
    pose proof (split_first [] x (Some 1%nat) h r eq_refl) as Hcut.
    simpl in Hcut. rewrite split_no_cut in Hcut. apply Hcut.
    rewrite app_nil_r. now apply occurs_single.
  - left. split; [done|]. apply split_absent. now apply occurs_single.
Qed.

End Split.

(** ** The parser, block by block *)

Section Parser.

(** What the loop body does with a block depends on the stripped block
    only: without a newline in it nothing is appended; otherwise it is cut
    at its first newline into header and remainder, and the record is
    appended when the header passes both tests. *)
Lemma parse_block_cases (messages : list message) (block : list N) :
  ((NL ∉ strip block) /\ parse_block messages block = messages)
  \/ (exists header rest,
        strip block = header ++ NL :: rest /\ (NL ∉ header)
        /\ parse_block messages block =
             if startswith (py "role: ") header
                && bool_decide (role_tag header ∈ recognized_roles)
             then messages ++ [Message (role_tag header) rest]
             else messages).
Proof.
  unfold parse_block.
  destruct (split_line_spec NL (strip block))
    as [[Hn Hs] | (h & r & Hb & Hh & Hs)]; rewrite Hs.
  - left. split; [done|]. now destruct (is_empty _).
  - right. exists h, r. repeat split; [done..|].
    rewrite Hb. destruct h; cbn [is_empty app length Nat.leb Nat.ltb nth];
      fold (role_tag []); try fold (role_tag (n :: h));
      fold recognized_roles; now destruct (startswith _ _), (bool_decide _).
Qed.

(** The cut is the one at the first newline, whichever way it is found. *)
Lemma parse_block_at (messages : list message)
    (block header rest : list N) :
  strip block = header ++ NL :: rest -> NL ∉ header ->
  parse_block messages block =
    if startswith (py "role: ") header
       && bool_decide (role_tag header ∈ recognized_roles)
    then messages ++ [Message (role_tag header) rest]
    else messages.
Proof.
  intros Hs Hh.
  destruct (parse_block_cases messages block)
    as [[Hn _] | (h & r & Hb & Hh' & ->)].
  - exfalso. apply Hn. rewrite Hs. set_solver.
  - rewrite Hs in Hb.
    apply not_elem_of_app_cons_inv_l in Hb as (-> & _ & ->); done.
Qed.

Lemma parse_block_app (messages : list message) (block : list N) :
  parse_block messages block = messages ++ parse_block [] block.
Proof.
  unfold parse_block.
  repeat match goal with
         | |- context [if ?c then _ else _] => destruct c
         end; now rewrite ?app_nil_r.
Qed.

Lemma fold_parse_block (blocks : list (list N)) (messages : list message) :
  fold_left parse_block blocks messages
  = messages ++ concat (List.map (parse_block []) blocks).
Proof.
  revert messages. induction blocks as [|b bs IH]; intros ms; simpl.
  - now rewrite app_nil_r.
  - rewrite IH, parse_block_app, app_assoc. reflexivity.
Qed.

(** The output is the concatenation, in block order, of what each block
    contributes. *)
Lemma parse_by_blocks (context_string : list N) :
  parse_context_to_messages context_string
  = concat (List.map (parse_block []) (blocks_of context_string)).
Proof.
  unfold parse_context_to_messages, blocks_of.
  destruct (strip context_string) eqn:Hs; [done|].
  cbn [is_empty]. now rewrite fold_parse_block.
Qed.

(** A record in the output comes from one of the blocks. *)
Lemma parse_elem (context_string : list N) (m : message) :
  m ∈ parse_context_to_messages context_string ->
  exists block, block ∈ blocks_of context_string /\ m ∈ parse_block [] block.
Proof.
  rewrite parse_by_blocks. rewrite list_elem_of_In, in_concat.
  intros (l & Hl & Hm). apply in_map_iff in Hl as (b & <- & Hb).
  exists b. now rewrite !list_elem_of_In.
Qed.

(** A record contributed by a block: its content is what follows the first
    newline of the stripped block, its role is the tag of the header. *)
Lemma parse_block_elem (block : list N) (m : message) :
  m ∈ parse_block [] block ->
  exists header,
    strip block = header ++ NL :: content m /\ (NL ∉ header)
    /\ startswith (py "role: ") header = true
    /\ role m = role_tag header /\ (role m ∈ recognized_roles).
Proof.
  destruct (parse_block_cases [] block)
    as [[_ ->] | (h & r & Hb & Hh & ->)]; [set_solver|].
  destruct (startswith _ h) eqn:Hpre; [|set_solver].
  destruct (bool_decide _) eqn:Hrole; [|set_solver].
  apply bool_decide_eq_true in Hrole. simpl.
  intros ->%list_elem_of_singleton. now exists h.
Qed.

End Parser.

(** ** The context store *)

Section Store.

Implicit Types (t : gmap Z (list N)) (u : Z).

Lemma ensure_entry_lookup t u :
  ensure_entry u t !! u = Some (default [] (t !! u)).
Proof.
  unfold ensure_entry. destruct (t !! u) eqn:H; simpl; [done|].
  apply lookup_insert_eq.
Qed.

Lemma ensure_entry_other t u u' :
  u <> u' -> ensure_entry u t !! u' = t !! u'.
Proof.
  intros Hne. unfold ensure_entry. destruct (t !! u); [done|].
  now apply lookup_insert_ne.
Qed.

(** The subscription [user_contexts[user_id]] after the entry was made. *)
Lemma ensure_entry_total t u :
  ensure_entry u t !!! u = default [] (t !! u).
Proof.
  rewrite lookup_total_alt, ensure_entry_lookup. reflexivity.
Qed.

Lemma get_context_result t u :
  fst (get_context u t) = default [] (t !! u).
Proof. apply ensure_entry_total. Qed.

Lemma add_to_context_lookup t u role content :
  add_to_context u role content t !! u
  = Some (default [] (t !! u) ++ block_text role content).
Proof.
  unfold add_to_context. rewrite lookup_insert_eq, ensure_entry_total.
  reflexivity.
Qed.

Lemma add_to_context_other t u u' role content :
  u <> u' -> add_to_context u role content t !! u' = t !! u'.
Proof.
  intros Hne. unfold add_to_context.
  rewrite lookup_insert_ne by done. now apply ensure_entry_other.
Qed.

(** A role with newlines in it still gives a complete block: the header
    line ends at the first newline and the rest of the role reads as the
    start of the content. *)
Lemma block_text_any_role (role content : list N) :
  exists tag content',
    (NL ∉ tag) /\ block_text role content = block_text tag content'.
Proof.
  destruct (decide (NL ∈ role)) as [Hin|Hout].
  - apply list_elem_of_split_l in Hin as (r1 & r2 & -> & Hr1).
    exists r1, (r2 ++ [NL] ++ content). split; [done|].
    unfold block_text. now rewrite <- !app_assoc.
  - now exists role, content.
Qed.

Lemma well_formed_add (blob role content : list N) :
  well_formed blob -> well_formed (blob ++ block_text role content).
Proof.
  intros Hwf.
  destruct (block_text_any_role role content) as (tag & c' & Htag & ->).
  now constructor.
Qed.

Lemma exec_well_formed (c : call) t :
  well_formed_table t -> well_formed_table (snd (exec c t)).
Proof.
  intros Hwf. destruct c as [u|u role content|u|s]; simpl.
  - intros u' blob. unfold ensure_entry.
    destruct (t !! u) eqn:Hu; [apply Hwf|].
    destruct (decide (u = u')) as [<-|Hne].
    + rewrite lookup_insert_eq. intros [= <-]. constructor.
    + rewrite lookup_insert_ne by done. apply Hwf.
  - intros u' blob. destruct (decide (u = u')) as [<-|Hne].
    + rewrite add_to_context_lookup. intros [= <-].
      apply well_formed_add.
      destruct (t !! u) eqn:Hu; simpl; [now apply (Hwf u)|constructor].
    + rewrite add_to_context_other by done. apply Hwf.
  - unfold clear_user_context. destruct (t !! u) eqn:Hu; [|apply Hwf].
    simpl. intros u' blob. destruct (decide (u = u')) as [<-|Hne].
    + rewrite lookup_insert_eq. intros [= <-]. constructor.
    + rewrite lookup_insert_ne by done. apply Hwf.
  - exact Hwf.
Qed.

End Store.

(** ** Statements about the context store *)

(** C4. [clear_user_context] on a user id without an entry returns [False]
    and leaves the table as it was, so that no entry is created: after it,
    [get_context] for that id returns the empty string and a further
    [clear_user_context] returns [False] again.  On a user id that has an
    entry (in particular one with a non-empty transcript) it returns [True]
    and leaves the id in the table, mapped to the empty string. *)
Theorem clear_user_context_semantics (t : gmap Z (list N)) (u : Z) :
  match t !! u with
  | None =>
      clear_user_context u t = (false, t)
      /\ snd (clear_user_context u t) !! u = None
      /\ fst (get_context u (snd (clear_user_context u t))) = []
      /\ fst (clear_user_context u (snd (clear_user_context u t))) = false
  | Some blob =>
      fst (clear_user_context u t) = true
      /\ snd (clear_user_context u t) !! u = Some []
  end.
Proof.
  destruct (t !! u) as [blob|] eqn:Hu.
  - unfold clear_user_context. rewrite Hu. simpl.
    split; [done|apply lookup_insert_eq].
  - assert (clear_user_context u t = (false, t)) as ->.
    { unfold clear_user_context. now rewrite Hu. }
    simpl. split; [reflexivity|]. split; [exact Hu|]. split.
    + now rewrite ensure_entry_total, Hu.
    + unfold clear_user_context. now rewrite Hu.
Qed.

(** [get_context] is what creates an entry: once it has been called for an
    id, [clear_user_context] for that id returns [True]. *)
Lemma clear_after_get (t : gmap Z (list N)) (u : Z) :
  fst (clear_user_context u (snd (get_context u t))) = true.
Proof.
  unfold clear_user_context, get_context. simpl.
  now rewrite ensure_entry_lookup.
Qed.

(** C5. Whatever sequence of [get_context], [add_to_context] and
    [clear_user_context] calls is made, with any role and content strings,
    every user id in the table keeps a well-formed transcript, made of
    complete blocks only. *)
Theorem well_formed_table_preserved (calls : list call)
    (t : gmap Z (list N)) :
  well_formed_table t -> well_formed_table (run calls t).
Proof.
  unfold run. revert t. induction calls as [|c calls IH]; intros t Hwf.
  - exact Hwf.
  - simpl. apply IH. now apply exec_well_formed.
Qed.

Lemma well_formed_table_preserved_witness :
  well_formed_table
    (run [AddToContext 42 (py "user") (py "Hello");
          GetContext 7;
          AddToContext 42 (NL :: py "assistant") [NL; NL];
          ClearUserContext 7;
          AddToContext 7 [] []] ∅).
Proof.
  apply well_formed_table_preserved.
  intros u blob H. rewrite lookup_empty in H. discriminate H.
Defined.

(** C7. [add_to_context] puts exactly the text
    ["role: " + role + "\n" + content + "\n\n"] behind the transcript the
    user had, which stays as the beginning of the new one; a user without an
    entry starts from the empty string. *)
Theorem add_to_context_appends (t : gmap Z (list N)) (u : Z)
    (role content : list N) :
  add_to_context u role content t !! u
  = Some (default [] (t !! u)
          ++ py "role: " ++ role ++ [NL] ++ content ++ [NL; NL]).
Proof. apply add_to_context_lookup. Qed.

(** C8. For two different user ids [a] and [b], a call of [get_context],
    [add_to_context] or [clear_user_context] for [a] leaves the entry of [b]
    as it was (present or not, and with the same text), and what the call
    returns and makes of the entry of [a] is the same in any two tables that
    agree on the entry of [a]. *)
Theorem store_isolation (a b : Z) (role content : list N)
    (t t' : gmap Z (list N)) :
  a <> b ->
  t' !! a = t !! a ->
  (snd (get_context a t) !! b = t !! b
   /\ add_to_context a role content t !! b = t !! b
   /\ snd (clear_user_context a t) !! b = t !! b)
  /\ (fst (get_context a t') = fst (get_context a t)
      /\ fst (clear_user_context a t') = fst (clear_user_context a t))
  /\ (snd (get_context a t') !! a = snd (get_context a t) !! a
      /\ add_to_context a role content t' !! a
         = add_to_context a role content t !! a
      /\ snd (clear_user_context a t') !! a
         = snd (clear_user_context a t) !! a).
Proof.
  intros Hne Ha. repeat split.
  - now apply ensure_entry_other.
  - now apply add_to_context_other.
  - unfold clear_user_context. destruct (t !! a); [|done].
    now apply lookup_insert_ne.
  - now rewrite !get_context_result, Ha.
  - unfold clear_user_context. rewrite Ha. now destruct (t !! a).
  - unfold get_context. simpl. now rewrite !ensure_entry_lookup, Ha.
  - now rewrite !add_to_context_lookup, Ha.
  - unfold clear_user_context. rewrite Ha.
    destruct (t !! a) eqn:E; simpl; [now rewrite !lookup_insert_eq|].
    congruence.
Qed.

Lemma store_isolation_witness :
  let t : gmap Z (list N) := {[ 2%Z := py "kept" ]} in
  let t' : gmap Z (list N) := ∅ in
  snd (get_context 1 t) !! 2%Z = Some (py "kept")
  /\ fst (get_context 1 t') = fst (get_context 1 t).
Proof.
  intros t t'.
  destruct (store_isolation 1 2 (py "user") (py "hi") t t')
    as ((H1 & _) & (H2 & _) & _).
  - lia.
  - reflexivity.
  - split; [exact H1|exact H2].
Defined.

Section ParserCall.

Lemma list_append_last (T : gmap Z (list N)) (old : list (list message))
    (acc : list message) (m : message) :
  list_append (length old) m (World T (old ++ [acc]))
  = World T (old ++ [acc ++ [m]]).
Proof.
  unfold list_append. simpl. f_equal.
  induction old as [|l old IH]; [done|].
  simpl. now rewrite <- IH.
Qed.

(** The loop body changes the list it is given a reference to, as
    [parse_block] says, and nothing else. *)
Lemma parse_block_call_last (T : gmap Z (list N))
    (old : list (list message)) (acc : list message) (block : list N) :
  parse_block_call (length old) (World T (old ++ [acc])) block
  = World T (old ++ [parse_block acc block]).
Proof.
  unfold parse_block_call, parse_block.
  repeat match goal with
         | |- context [if ?c then _ else _] => destruct c
         end; try reflexivity; apply list_append_last.
Qed.

Lemma parse_blocks_call_last (T : gmap Z (list N))
    (old : list (list message)) (blocks : list (list N))
    (acc : list message) :
  fold_left (parse_block_call (length old)) blocks (World T (old ++ [acc]))
  = World T (old ++ [fold_left parse_block blocks acc]).
Proof.
  revert acc. induction blocks as [|b blocks IH]; intros acc; [done|].
  simpl. now rewrite parse_block_call_last, IH.
Qed.

End ParserCall.

(** C9. A call of [parse_context_to_messages] leaves the context table and
    every list object that existed before it as they were; the list it
    returns is a new object, and what that list holds is a function of the
    context string alone.  So two calls on the same string, in whatever
    worlds, return lists that hold the same records. *)
Theorem parse_context_to_messages_pure (context_string : list N)
    (w w' : world) :
  let r := parse_context_to_messages_call context_string w in
  let r' := parse_context_to_messages_call context_string w' in
  table (snd r) = table w
  /\ fst r = length (lists w)
  /\ lists (snd r)
     = lists w ++ [parse_context_to_messages context_string]
  /\ lists (snd r) !! fst r = lists (snd r') !! fst r'.
Proof.
  assert (forall v,
            parse_context_to_messages_call context_string v
            = (length (lists v),
               World (table v)
                 (lists v ++ [parse_context_to_messages context_string])))
    as Hcall.
  { intros [T old]. unfold parse_context_to_messages_call,
      parse_context_to_messages, new_list. cbn [table lists].
    destruct (is_empty (strip context_string)); [done|].
    now rewrite parse_blocks_call_last. }
  cbv zeta. rewrite !Hcall. cbn [fst snd table lists].
  repeat split.
  rewrite !lookup_app_r, !Nat.sub_diag by done. reflexivity.
Qed.

(** ** Statements about the transcript parser *)

Section Replace.

Lemma replace_from_skip (old new : list N) (k : nat) (s : list N) :
  replace_from old new k s = replace old new (drop k s).
Proof.
  unfold replace. revert k. induction s as [|c s IH]; intros k.
  - now destruct k.
  - destruct k as [|k]; [done|]. simpl. apply IH.
Qed.

Lemma replace_absent (old new s : list N) :
  occurs old s = false -> replace old new s = s.
Proof.
  unfold replace. induction s as [|c s IH]; [done|].
  rewrite occurs_cons, orb_false_iff. intros [Hc Hs].
  simpl replace_from. rewrite Hc, IH by done. reflexivity.
Qed.

(** When the prefix does not occur again behind itself, removing every
    occurrence and removing the leading one are the same. *)
Lemma role_tag_single_prefix (tail : list N) :
  occurs (py "role: ") tail = false ->
  role_tag (py "role: " ++ tail) = role_tag_after_prefix (py "role: " ++ tail).
Proof.
  intros Hocc. unfold role_tag, role_tag_after_prefix.
  rewrite drop_app_length. f_equal.
  unfold replace.
  change (py "role: " ++ tail) with (114 :: (py "ole: " ++ tail)).
  simpl replace_from.
  now apply replace_absent.
Qed.

End Replace.

(** C2 (the code departs from the statement).  For the header line
    [role: role: user] the parser's tag is [user]: [replace] takes out both
    occurrences of the prefix, where the remainder behind the leading prefix
    is [role: user].  The block is then let through with role [user]. *)
Theorem role_tag_removes_every_occurrence :
  let role_line := py "role: role: user" in
  startswith (py "role: ") role_line = true
  /\ role_tag role_line = py "user"
  /\ role_tag_after_prefix role_line = py "role: user"
  /\ parse_context_to_messages (role_line ++ [NL] ++ py "hi" ++ [NL; NL])
     = [Message (py "user") (py "hi")].
Proof. vm_compute. repeat split. Qed.




(** C10. No record emitted has whitespace at the end of its content (and
    none has an empty content): the block is stripped before the header is
    split off. *)
Theorem parsed_content_no_trailing_space (context_string : list N) :
  Forall (fun m => content m <> [] /\ no_trailing_space (content m)
                   /\ rstrip (content m) = content m)
         (parse_context_to_messages context_string).
Proof.
  apply Forall_forall. intros m Hm.
  apply parse_elem in Hm as (block & _ & Hm).
  apply parse_block_elem in Hm as (header & Hs & _).
  pose proof (strip_no_trailing block) as Hnt. rewrite Hs in Hnt.
  assert (content m <> []) as Hne.
  { intros Hnil. rewrite Hnil in Hnt.
    specialize (Hnt NL). rewrite last_snoc in Hnt.
    specialize (Hnt eq_refl). discriminate Hnt. }
  assert (no_trailing_space (content m)) as Hc.
  { apply (no_trailing_space_suffix (header ++ [NL])); [done|].
    now rewrite <- app_assoc. }
  repeat split; [done..|]. now apply rstrip_fixed.
Qed.

(** The filter as the code applies it.  A block whose stripped text is a
    header line alone, or for which the tag the parser computes from the
    header line is neither [user] nor [assistant], leaves the list of
    messages as it is: the output is what the blocks before and after it
    contribute, and every record in it has one of the two roles. *)
Theorem unrecognized_blocks_skipped (context_string : list N)
    (before after : list (list N)) (block : list N)
    (messages : list message) :
  blocks_of context_string = before ++ block :: after ->
  (NL ∉ strip block)
  \/ (exists header rest,
        strip block = header ++ NL :: rest /\ (NL ∉ header)
        /\ (role_tag header ∉ recognized_roles)) ->
  parse_block messages block = messages
  /\ parse_context_to_messages context_string
     = concat (List.map (parse_block []) before)
       ++ concat (List.map (parse_block []) after)
  /\ Forall (fun m => role m = py "user" \/ role m = py "assistant")
            (parse_context_to_messages context_string).
Proof.
  intros Hblocks Hbad.
  assert (forall ms, parse_block ms block = ms) as Hskip.
  { intros ms. destruct Hbad as [Hn | (header & rest & Hs & Hh & Htag)].
    - destruct (parse_block_cases ms block)
        as [[_ ->] | (h & r & Hb & _)]; [done|].
      exfalso. apply Hn. rewrite Hb. set_solver.
    - rewrite (parse_block_at ms block header rest) by done.
      rewrite bool_decide_eq_false_2 by done.
      now rewrite andb_false_r. }
  split; [apply Hskip|]. split.
  - rewrite parse_by_blocks, Hblocks, map_app, concat_app. simpl.
    now rewrite Hskip.
  - apply Forall_forall. intros m Hm.
    apply parse_elem in Hm as (b & _ & Hm).
    apply parse_block_elem in Hm as (header & _ & _ & _ & _ & Hrole).
    apply elem_of_cons in Hrole as [Hrole|Hrole]; [now left|].
    apply list_elem_of_singleton in Hrole. now right.
Qed.

Lemma unrecognized_blocks_skipped_witness :
  let system := py "role: system" ++ [NL] ++ py "be brief" in
  let shout := py "role: ROLE" ++ [NL] ++ py "x" in
  let untagged := py "role: " ++ [NL] ++ py "y" in
  let bare := py "role: user" in
  let hello := py "role: user" ++ [NL] ++ py "Hello" in
  let blob := system ++ [NL; NL] ++ hello ++ [NL; NL] ++ shout ++ [NL; NL]
              ++ untagged ++ [NL; NL] ++ bare ++ [NL; NL] in
  parse_context_to_messages blob
  = concat (List.map (parse_block []) [])
    ++ concat (List.map (parse_block []) [hello; shout; untagged; bare])
  /\ parse_block [] shout = []
  /\ parse_block [] untagged = []
  /\ parse_block [] bare = [].
Proof.
  intros system shout untagged bare hello blob.
  split; [|split; [|split]].
  - refine (proj1 (proj2 (unrecognized_blocks_skipped blob []
                            [hello; shout; untagged; bare] system [] _ _))).
    + vm_compute. reflexivity.
    + right. exists (py "role: system"), (py "be brief").
      split; [vm_compute; reflexivity|]. split; compute_done.
  - refine (proj1 (unrecognized_blocks_skipped blob [system; hello]
                     [untagged; bare] shout [] _ _)).
    + vm_compute. reflexivity.
    + right. exists (py "role: ROLE"), (py "x").
      split; [vm_compute; reflexivity|]. split; compute_done.
  - refine (proj1 (unrecognized_blocks_skipped blob [system; hello; shout]
                     [bare] untagged [] _ _)).
    + vm_compute. reflexivity.
    + right. exists (py "role: "), (py "y").
      split; [vm_compute; reflexivity|]. split; compute_done.
  - refine (proj1 (unrecognized_blocks_skipped blob
                     [system; hello; shout; untagged] [] bare [] _ _)).
    + vm_compute. reflexivity.
    + left. compute_done.
Defined.

(** C6 (the code departs from the statement).  The block with the header
    line [role: role: user] has the role tag [role: user], which is neither
    [user] nor [assistant], and the parser does not exclude it: the block is
    emitted with the role [user], because every occurrence of the prefix is
    taken out of the header line.  One user message with a blank line in it
    puts such a block into the transcript. *)
Theorem unrecognized_tag_is_emitted :
  let role_line := py "role: role: user" in
  let block := role_line ++ [NL] ++ py "hi" in
  let blob := block_text (py "user") (py "x" ++ [NL; NL] ++ block) in
  blocks_of blob = [py "role: user" ++ [NL] ++ py "x"; block]
  /\ startswith (py "role: ") role_line = true
  /\ role_tag_after_prefix role_line = py "role: user"
  /\ (role_tag_after_prefix role_line ∉ recognized_roles)
  /\ parse_block [] block = [Message (py "user") (py "hi")]
  /\ parse_context_to_messages blob
     = [Message (py "user") (py "x"); Message (py "user") (py "hi")].
Proof.
  repeat split; try (vm_compute; reflexivity). compute_done.
Qed.

(** ** Round trip through the store and the parser *)

Section RoundTrip.

Implicit Types (rc : list N * list N) (records : list (list N * list N)).

(** What [get_context] returns after the records were added. *)
Lemma get_context_add_all records (t : gmap Z (list N)) (u : Z) :
  fst (get_context u (add_all u records t))
  = default [] (t !! u) ++ concat (List.map record_text records).
Proof.
  revert t. induction records as [|rc records IH]; intros t.
  - rewrite get_context_result. simpl. now rewrite app_nil_r.
  - unfold add_all in *. simpl fold_left. rewrite IH.
    rewrite add_to_context_lookup. simpl. now rewrite <- app_assoc.
Qed.

Lemma record_text_block rc : record_text rc = record_block rc ++ [NL; NL].
Proof.
  unfold record_text, record_block, block_text.
  now rewrite <- !app_assoc.
Qed.

(** No occurrence of the separator starts inside a stretch that has no
    newline. *)
Lemma occurs_separator_skip (h s : list N) :
  NL ∉ h -> occurs [NL; NL] (h ++ s) = occurs [NL; NL] s.
Proof.
  induction h as [|c h IH]; [done|].
  intros [Hc Hh]%not_elem_of_cons. simpl app. rewrite occurs_cons.
  rewrite IH by done. cbn [startswith].
  apply N.eqb_neq in Hc. now rewrite Hc.
Qed.

Lemma occurs_separator_snoc (s : list N) :
  occurs [NL; NL] s = false -> no_trailing_space s ->
  occurs [NL; NL] (s ++ [NL]) = false.
Proof.
  induction s as [|c s IH]; [done|].
  rewrite occurs_cons, orb_false_iff. intros [Hc Hs] Hlast.
  simpl app. rewrite occurs_cons, orb_false_iff.
  destruct s as [|d s].
  - split; [|done]. cbn [startswith app].
    destruct (N.eqb_spec NL c) as [<-|_]; [|done].
    now specialize (Hlast NL eq_refl).
  - split; [exact Hc|]. apply IH; [done|].
    intros x Hx. apply Hlast. exact Hx.
Qed.

Lemma recognized_role_no_newline (r : list N) :
  r ∈ recognized_roles -> NL ∉ py "role: " ++ r.
Proof.
  intros [->|[->|[]%elem_of_nil]%elem_of_cons]%elem_of_cons; compute_done.
Qed.

Lemma recognized_role_tag (r : list N) :
  r ∈ recognized_roles ->
  startswith (py "role: ") (py "role: " ++ r) = true
  /\ role_tag (py "role: " ++ r) = r.
Proof.
  intros [->|[->|[]%elem_of_nil]%elem_of_cons]%elem_of_cons;
    now vm_compute.
Qed.

Section OneRecord.

Variable rc : list N * list N.
Hypothesis Hrc : round_trip_record rc.

Lemma record_block_cut :
  record_block rc = (py "role: " ++ fst rc) ++ NL :: snd rc.
Proof. unfold record_block. now rewrite <- app_assoc. Qed.

Lemma record_block_no_trailing : no_trailing_space (record_block rc).
Proof.
  destruct Hrc as ((_ & Hne & _) & _ & Hlast).
  rewrite record_block_cut.
  apply (no_trailing_space_app _ (NL :: snd rc)); [done|].
  now apply (no_trailing_space_app [NL]).
Qed.

Lemma record_block_strip : strip (record_block rc) = record_block rc.
Proof.
  pose proof record_block_no_trailing as H.
  unfold record_block in *.
  change (py "role: " ++ fst rc ++ [NL] ++ snd rc)
    with (114 :: py "ole: " ++ fst rc ++ [NL] ++ snd rc) in *.
  now apply strip_fixed.
Qed.

(** No separator starts inside the block, nor on its last character. *)
Lemma record_block_no_separator :
  occurs [NL; NL] (record_block rc ++ [NL]) = false.
Proof.
  destruct Hrc as ((Hrole & Hne & Hocc) & Hhead & Hlast).
  rewrite record_block_cut, <- app_assoc.
  rewrite occurs_separator_skip by now apply recognized_role_no_newline.
  simpl app. rewrite occurs_cons, orb_false_iff. split.
  - destruct (snd rc) as [|c s]; [done|]. cbn [startswith app].
    destruct (N.eqb_spec NL c) as [<-|_]; [|done].
    now contradiction Hhead.
  - now apply occurs_separator_snoc.
Qed.

(** The loop body gives the record back. *)
Lemma parse_record_block :
  parse_block [] (record_block rc) = [record_message rc].
Proof.
  destruct Hrc as ((Hrole & _) & _).
  rewrite (parse_block_at [] _ (py "role: " ++ fst rc) (snd rc)).
  - destruct (recognized_role_tag _ Hrole) as [-> ->].
    now rewrite bool_decide_eq_true_2.
  - rewrite record_block_strip. apply record_block_cut.
  - now apply recognized_role_no_newline.
Qed.

End OneRecord.

(** Cutting a run of blocks at the separators gives the blocks back. *)
Lemma split_record_blocks records rc :
  Forall round_trip_record records -> round_trip_record rc ->
  split [NL; NL] None
    (concat (List.map record_text records) ++ record_block rc)
  = List.map record_block records ++ [record_block rc].
Proof.
  intros Hall Hrc. induction Hall as [|r records Hr _ IH].
  - simpl. apply split_absent.
    apply (occurs_app_false _ _ [NL]).
    now apply record_block_no_separator.
  - change (concat (List.map record_text (r :: records)))
      with (record_text r ++ concat (List.map record_text records)).
    rewrite record_text_block, <- !app_assoc.
    rewrite (split_first [NL] NL None (record_block r)); [|done|].
    + change ([NL] ++ [NL]) with [NL; NL]. simpl one_less.
      now rewrite IH.
    + now apply record_block_no_separator.
Qed.

(** Stripping the whole transcript takes the last separator away and
    nothing else. *)
Lemma strip_transcript records rc :
  Forall round_trip_record records -> round_trip_record rc ->
  strip (concat (List.map record_text (records ++ [rc])))
  = concat (List.map record_text records) ++ record_block rc.
Proof.
  intros Hall Hrc.
  rewrite map_app, concat_app.
  change (concat (List.map record_text [rc])) with (record_text rc ++ []).
  rewrite app_nil_r, record_text_block.
  assert (exists s, concat (List.map record_text records) ++ record_block rc
                    = 114 :: s) as [s Hs].
  { destruct records as [|r records]; simpl; [now eexists|].
    unfold record_text at 1, block_text. simpl. now eexists. }
  rewrite app_assoc, Hs.
  unfold strip.
  change ((114 :: s) ++ [NL; NL]) with (114 :: (s ++ [NL; NL])).
  rewrite lstrip_keeps by done.
  replace (114 :: (s ++ [NL; NL])) with (((114 :: s) ++ [NL]) ++ [NL])
    by now rewrite <- app_assoc.
  rewrite !rstrip_snoc_drops by done.
  apply rstrip_fixed. rewrite <- Hs.
  apply no_trailing_space_app; [|now apply record_block_no_trailing].
  unfold record_block. now destruct (py "role: " ++ _) eqn:E.
Qed.

Lemma parse_record_blocks records :
  Forall round_trip_record records ->
  concat (List.map (parse_block []) (List.map record_block records))
  = List.map record_message records.
Proof.
  induction 1 as [|r records Hr _ IH]; [done|].
  simpl. rewrite parse_record_block by done. now rewrite IH.
Qed.

(** Parsing the text written for the records gives the records. *)
Lemma parse_transcript records :
  Forall round_trip_record records ->
  parse_context_to_messages (concat (List.map record_text records))
  = List.map record_message records.
Proof.
  intros Hall.
  destruct records as [|rc records _] using rev_ind; [done|].
  apply Forall_app in Hall as [Hall Hrc].
  apply Forall_inv in Hrc.
  rewrite parse_by_blocks. unfold blocks_of.
  rewrite strip_transcript, split_record_blocks by done.
  rewrite <- (map_app record_block _ [rc]).
  apply parse_record_blocks.
  apply Forall_app. split; [done|now constructor].
Qed.

End RoundTrip.

(** C1 as stated fails: a content that ends with a space comes back without
    it, and a content that starts with a newline does not come back at
    all, although both are non-empty and have no block separator in them. *)
Lemma round_trip_counterexample :
  let trailing := [(py "user", py "hi ")] in
  let leading := [(py "assistant", NL :: py "hi")] in
  Forall claimed_record trailing
  /\ parse_context_to_messages (fst (get_context 1 (add_all 1 trailing ∅)))
     = [Message (py "user") (py "hi")]
  /\ parse_context_to_messages (fst (get_context 1 (add_all 1 trailing ∅)))
     <> List.map record_message trailing
  /\ Forall claimed_record leading
  /\ parse_context_to_messages (fst (get_context 1 (add_all 1 leading ∅)))
     = []
  /\ parse_context_to_messages (fst (get_context 1 (add_all 1 leading ∅)))
     <> List.map record_message leading.
Proof.
  assert (forall r c, r ∈ recognized_roles -> c <> [] ->
                      occurs [NL; NL] c = false ->
                      Forall claimed_record [(r, c)]) as Hclaimed.
  { intros r c Hr Hc Ho. constructor; [|constructor]. now repeat split. }
  repeat split.
  - apply Hclaimed; [compute_done|done|reflexivity].
  - vm_compute. discriminate.
  - apply Hclaimed; [compute_done|done|reflexivity].
  - vm_compute. discriminate.
Qed.

(** C1, amended.  For every sequence of (role, content) pairs with role
    [user] or [assistant] and a non-empty content that has no block
    separator in it, does not start with a newline and does not end with a
    whitespace character: adding the pairs in order for a user id that has
    no entry, and parsing what [get_context] returns for that id, gives
    exactly the records of the pairs, in order. *)
Theorem round_trip (t : gmap Z (list N)) (u : Z)
    (records : list (list N * list N)) :
  t !! u = None ->
  Forall round_trip_record records ->
  parse_context_to_messages (fst (get_context u (add_all u records t)))
  = List.map record_message records.
Proof.
  intros Hfresh Hall.
  rewrite get_context_add_all, Hfresh. simpl.
  now apply parse_transcript.
Qed.

Lemma round_trip_witness :
  parse_context_to_messages
    (fst (get_context 42
            (add_all 42 [(py "user", py " Hello" ++ [NL] ++ py "there");
                         (py "assistant", py "Hi there")]
                     {[ 7%Z := py "other" ]})))
  = [Message (py "user") (py " Hello" ++ [NL] ++ py "there");
     Message (py "assistant") (py "Hi there")].
Proof.
  apply (round_trip {[ 7%Z := py "other" ]} 42
           [(py "user", py " Hello" ++ [NL] ++ py "there");
            (py "assistant", py "Hi there")]).
  - reflexivity.
  - repeat constructor; try compute_done; try discriminate;
      intros c [= <-]; reflexivity.
Defined.

(** ** Further properties of the parser *)

Section Whitespace.

Lemma lstrip_all_space (w : list N) :
  Forall (fun c => isspace c = true) w -> lstrip w = [].
Proof. induction 1 as [|c w Hc _ IH]; simpl; [done|]. now rewrite Hc. Qed.

Lemma lstrip_space_app (w s : list N) :
  Forall (fun c => isspace c = true) w -> lstrip (w ++ s) = lstrip s.
Proof. induction 1 as [|c w Hc _ IH]; simpl; [done|]. now rewrite Hc. Qed.

Lemma rstrip_app_space (s w : list N) :
  Forall (fun c => isspace c = true) w -> rstrip (s ++ w) = rstrip s.
Proof.
  intros Hw. unfold rstrip. rewrite rev_app_distr.
  rewrite lstrip_space_app; [done|].
  apply Forall_forall. intros c Hc. rewrite Forall_forall in Hw.
  apply Hw. apply list_elem_of_In. apply list_elem_of_In in Hc.
  now apply in_rev.
Qed.

Lemma strip_app_space (s w : list N) :
  Forall (fun c => isspace c = true) w -> strip (s ++ w) = strip s.
Proof.
  intros Hw. unfold strip. induction s as [|c s IH]; simpl.
  - now rewrite lstrip_all_space.
  - destruct (isspace c); [exact IH|].
    now apply (rstrip_app_space (c :: s)).
Qed.

Lemma strip_surrounding_space (w1 s w2 : list N) :
  Forall (fun c => isspace c = true) w1 ->
  Forall (fun c => isspace c = true) w2 ->
  strip (w1 ++ s ++ w2) = strip s.
Proof.
  intros H1 H2. rewrite app_assoc, strip_app_space by done.
  unfold strip. now rewrite lstrip_space_app.
Qed.

End Whitespace.

(** X1. A string made of whitespace characters only (the empty string
    among them) parses to the empty list. *)
Theorem parse_whitespace_only (context_string : list N) :
  Forall (fun c => isspace c = true) context_string ->
  parse_context_to_messages context_string = [].
Proof.
  intros Hw. unfold parse_context_to_messages, strip.
  now rewrite lstrip_all_space.
Qed.

Lemma parse_whitespace_only_witness :
  parse_context_to_messages ([NL; NL] ++ py "  " ++ [0x09; 0xA0; 0x3000; NL])
  = [].
Proof.
  apply parse_whitespace_only. repeat constructor.
Defined.

(** X2. Whitespace around the context string does not count: with any
    whitespace put before and after it, the string parses to the same
    list. *)
Theorem parse_ignores_surrounding_space (w1 context_string w2 : list N) :
  Forall (fun c => isspace c = true) w1 ->
  Forall (fun c => isspace c = true) w2 ->
  parse_context_to_messages (w1 ++ context_string ++ w2)
  = parse_context_to_messages context_string.
Proof.
  intros H1 H2. unfold parse_context_to_messages.
  now rewrite strip_surrounding_space.
Qed.

Lemma parse_ignores_surrounding_space_witness :
  parse_context_to_messages
    ([NL; 0x20] ++ block_text (py "user") (py "Hello") ++ [0x09; NL; NL; NL])
  = parse_context_to_messages (block_text (py "user") (py "Hello")).
Proof.
  apply parse_ignores_surrounding_space; repeat constructor.
Defined.

Section Pieces.

Lemma occurs_app_r_false (sep a s : list N) :
  occurs sep (a ++ s) = false -> occurs sep s = false.
Proof.
  induction a as [|c a IH]; [done|].
  simpl app. rewrite occurs_cons, orb_false_iff. intros [_ H]. now apply IH.
Qed.

(** The first piece is the beginning of the string. *)
Lemma split_head_prefix (sep : list N) (n : option nat)
    (s q : list N) (qs : list (list N)) :
  sep <> [] -> split sep n s = q :: qs -> q `prefix_of` s.
Proof.
  intros Hsep Hs. rewrite <- (join_split sep n s Hsep), Hs.
  destruct qs as [|q' qs]; [done|].
  rewrite join_cons by done. now eexists.
Qed.

(** The separator occurs in none of the pieces. *)
Lemma split_pieces_no_separator (sep s p : list N) :
  sep <> [] -> p ∈ split sep None s -> occurs sep p = false.
Proof.
  intros Hsep. remember (length s) as m eqn:Hm.
  revert s p Hm. induction m as [m IH] using lt_wf_ind. intros s p -> Hp.
  destruct s as [|c s].
  - apply list_elem_of_singleton in Hp as ->. now destruct sep.
  - rewrite split_cons in Hp. simpl andb in Hp.
    destruct (startswith sep (c :: s)) eqn:Hpre.
    + apply elem_of_cons in Hp as [->|Hp]; [now destruct sep|].
      apply (IH (length (drop (Nat.pred (length sep)) s)))
        with (s := drop (Nat.pred (length sep)) s); [|done..].
      rewrite length_drop. simpl. lia.
    + destruct (split sep None s) as [|q qs] eqn:Hs.
      { now apply split_nonempty in Hs. }
      simpl in Hp. apply elem_of_cons in Hp as [->|Hp].
      * rewrite occurs_cons, orb_false_iff. split.
        -- destruct (startswith sep (c :: q)) eqn:Hq; [|done].
           rewrite <- Hpre. symmetry.
           apply startswith_prefix. apply startswith_prefix in Hq.
           etrans; [exact Hq|].
           apply prefix_cons. now apply (split_head_prefix sep None s q qs).
        -- apply (IH (length s)) with (s := s); [simpl; lia|done|].
           rewrite Hs. now left.
      * apply (IH (length s)) with (s := s); [simpl; lia|done|].
        rewrite Hs. now right.
Qed.

End Pieces.

(** X3. No record emitted has the block separator in its content: a blank
    line in what was written for a record ends the record for the parser. *)
Theorem parsed_content_no_separator (context_string : list N) :
  Forall (fun m => occurs [NL; NL] (content m) = false)
         (parse_context_to_messages context_string).
Proof.
  apply Forall_forall. intros m Hm.
  apply parse_elem in Hm as (block & Hblock & Hm).
  apply parse_block_elem in Hm as (header & Hs & _).
  apply split_pieces_no_separator in Hblock; [|done].
  destruct (lstrip_is_suffix block) as [w1 H1].
  destruct (rstrip_is_prefix (lstrip block)) as [w2 H2].
  fold (strip block) in H2. rewrite H1, H2, Hs in Hblock.
  apply occurs_app_r_false, occurs_app_false in Hblock.
  apply (occurs_app_r_false _ (header ++ [NL])).
  now rewrite <- app_assoc.
Qed.

(** ** Further properties of the store *)

(** X4. The store does not tell a block from a content that looks like
    one: adding a content in which a blank line is followed by a header line
    of its own leaves the table exactly as adding the two parts one after
    the other does. *)
Theorem add_to_context_forged_header (t : gmap Z (list N)) (u : Z)
    (role1 content1 role2 content2 : list N) :
  add_to_context u role1
    (content1 ++ [NL; NL] ++ py "role: " ++ role2 ++ [NL] ++ content2) t
  = add_to_context u role2 content2 (add_to_context u role1 content1 t).
Proof.
  apply map_eq. intros k. destruct (decide (u = k)) as [<-|Hne].
  - rewrite !add_to_context_lookup. cbn [from_option id]. f_equal.
    unfold block_text. rewrite <- !app_assoc. reflexivity.
  - now rewrite !add_to_context_other.
Qed.

(** X5. [get_context] returns the text stored for the user, the empty
    string for a user without an entry, and what it does to the table is to
    make that entry: afterwards the user has an entry holding the text
    returned, so that [clear_user_context] returns [True] for the user,
    every other entry is as before, and a second call returns the same and
    changes nothing more. *)
Theorem get_context_creates_entry (t : gmap Z (list N)) (u : Z) :
  fst (get_context u t) = default [] (t !! u)
  /\ snd (get_context u t) !! u = Some (fst (get_context u t))
  /\ delete u (snd (get_context u t)) = delete u t
  /\ fst (clear_user_context u (snd (get_context u t))) = true
  /\ get_context u (snd (get_context u t)) = get_context u t.
Proof.
  assert (ensure_entry u (ensure_entry u t) = ensure_entry u t) as Hidem.
  { unfold ensure_entry at 1. now rewrite ensure_entry_lookup. }
  split; [apply get_context_result|]. split.
  { rewrite get_context_result. apply ensure_entry_lookup. }
  split.
  { simpl. unfold ensure_entry. destruct (t !! u) eqn:Hu; [done|].
    apply delete_insert_eq. }
  split; [apply clear_after_get|].
  unfold get_context. simpl. now rewrite Hidem.
Qed.

(** ** The handlers *)

Section Handlers.

Implicit Types (t : gmap Z (list N)) (u : Z) (post : payload -> outcome).

Lemma get_context_present t u role content :
  get_context u (add_to_context u role content t)
  = (default [] (t !! u) ++ block_text role content,
     add_to_context u role content t).
Proof.
  unfold get_context. f_equal.
  - rewrite ensure_entry_total, add_to_context_lookup. reflexivity.
  - unfold ensure_entry. now rewrite add_to_context_lookup.
Qed.

(** [handle_message] step by step: the context string is the transcript
    with the block of the message behind it. *)
Lemma handle_message_exchange (typing_ok : bool) post t u
    (user_message : list N) :
  let context_string :=
    default [] (t !! u) ++ block_text (py "user") user_message in
  let t1 := add_to_context u (py "user") user_message t in
  let llm_response := snd (get_llm_response post context_string u) in
  handle_message typing_ok post u user_message t
  = if typing_ok
    then (Exchange (Some (llm_request context_string)) (Some llm_response),
          add_to_context u (py "assistant") llm_response t1)
    else (Exchange None None, t1).
Proof.
  intros cs t1 r. unfold handle_message.
  rewrite get_context_present. now destruct typing_ok.
Qed.

(** The dictionary posted for the text of clean records. *)
Lemma llm_request_records (records : list (list N * list N)) :
  Forall round_trip_record records ->
  llm_request (concat (List.map record_text records))
  = Payload MODEL_NAME (system_message :: List.map record_message records)
      (7 # 10)%Q (-1)%Z false.
Proof.
  intros Hall. unfold llm_request. now rewrite parse_transcript.
Qed.

Lemma clean_text_record (r c : list N) :
  r ∈ recognized_roles -> clean_text c -> round_trip_record (r, c).
Proof. intros Hr (Hne & Ho & Hh & Hl). now repeat split. Qed.

(** The three texts returned for an exception are clean. *)
Lemma failure_text_clean post (context_string : list N) u (e : exception) :
  post (llm_request context_string) = Raised e ->
  clean_text (snd (get_llm_response post context_string u)).
Proof.
  intros He. unfold get_llm_response. simpl. rewrite He.
  destruct (is_connection_error e); [|destruct (is_timeout e)];
    (split; [done|]; split; [vm_compute; reflexivity|];
     split; [done|]; intros c Hc; vm_compute in Hc;
     injection Hc as <-; reflexivity).
Qed.

Lemma llm_response_clean post (context_string : list N) u :
  (forall p r, post p = Returned r -> clean_text r) ->
  clean_text (snd (get_llm_response post context_string u)).
Proof.
  intros Hpost.
  destruct (post (llm_request context_string)) as [r|e] eqn:Hp.
  - unfold get_llm_response. simpl. rewrite Hp. now apply (Hpost _ _ Hp).
  - now apply (failure_text_clean _ _ _ e).
Qed.

Lemma clear_entry_empty t u :
  default [] (snd (clear_user_context u t) !! u) = [].
Proof.
  unfold clear_user_context. destruct (t !! u) eqn:Hu; simpl.
  - now rewrite lookup_insert_eq.
  - now rewrite Hu.
Qed.

Lemma clear_entry_other t u u' :
  u <> u' -> snd (clear_user_context u t) !! u' = t !! u'.
Proof.
  intros Hne. unfold clear_user_context. destruct (t !! u); [|done].
  simpl. now apply lookup_insert_ne.
Qed.

Lemma handle_message_other (typing_ok : bool) post t u u'
    (user_message : list N) :
  u <> u' ->
  snd (handle_message typing_ok post u user_message t) !! u' = t !! u'.
Proof.
  intros Hne. rewrite handle_message_exchange.
  destruct typing_ok; simpl; now rewrite !add_to_context_other.
Qed.

Lemma handle_message_entry (typing_ok : bool) post t u
    (user_message : list N) :
  let context_string :=
    default [] (t !! u) ++ block_text (py "user") user_message in
  snd (handle_message typing_ok post u user_message t) !! u
  = Some (if typing_ok
          then context_string
               ++ block_text (py "assistant")
                    (snd (get_llm_response post context_string u))
          else context_string).
Proof.
  intros cs. rewrite handle_message_exchange.
  destruct typing_ok; simpl; now rewrite !add_to_context_lookup.
Qed.

End Handlers.

(** X6. Whatever the context string holds, the dictionary posted by
    [get_llm_response] starts with the system message, and the messages
    behind it are the parsed ones, each with the role [user] or
    [assistant]: no text of the transcript is posted under another role. *)
Theorem llm_request_roles (post : payload -> outcome)
    (context_string : list N) (user_id : Z) :
  let posted_messages :=
    full_messages (fst (get_llm_response post context_string user_id)) in
  head posted_messages = Some system_message
  /\ tail posted_messages = parse_context_to_messages context_string
  /\ Forall (fun m => role m = py "user" \/ role m = py "assistant")
            (tail posted_messages).
Proof.
  simpl. repeat split. apply Forall_forall. intros m Hm.
  apply parse_elem in Hm as (b & _ & Hm).
  apply parse_block_elem in Hm as (header & _ & _ & _ & _ & Hrole).
  apply elem_of_cons in Hrole as [Hrole|Hrole]; [now left|].
  apply list_elem_of_singleton in Hrole. now right.
Qed.

(** X7. [handle_message] for one user leaves the entry of every other user
    as it was, and what it posts, what it replies and what it makes of the
    user's own entry are the same in any two tables that agree on that
    entry: no other user's transcript reaches the model. *)
Theorem handle_message_isolation (typing_ok : bool)
    (post : payload -> outcome) (a b : Z) (user_message : list N)
    (t t' : gmap Z (list N)) :
  a <> b ->
  t' !! a = t !! a ->
  snd (handle_message typing_ok post a user_message t) !! b = t !! b
  /\ fst (handle_message typing_ok post a user_message t')
     = fst (handle_message typing_ok post a user_message t)
  /\ snd (handle_message typing_ok post a user_message t') !! a
     = snd (handle_message typing_ok post a user_message t) !! a.
Proof.
  intros Hne Ha. split; [now apply handle_message_other|]. split.
  - rewrite !handle_message_exchange, Ha. now destruct typing_ok.
  - now rewrite !handle_message_entry, Ha.
Qed.

Lemma handle_message_isolation_witness :
  let post := fun _ : payload => Returned (py "Hi") in
  let t : gmap Z (list N) := {[ 2%Z := block_text (py "user") (py "secret") ]} in
  snd (handle_message true post 1 (py "Hello") t) !! 2%Z
  = Some (block_text (py "user") (py "secret"))
  /\ fst (handle_message true post 1 (py "Hello") ∅)
     = fst (handle_message true post 1 (py "Hello") t).
Proof.
  intros post t.
  destruct (handle_message_isolation true post 1 2 (py "Hello") t ∅)
    as (H1 & H2 & _).
  - lia.
  - reflexivity.
  - split; [exact H1|exact H2].
Defined.

(** X8. Over any sequence of updates, the entry of a user is changed by
    that user's own updates only. *)
Theorem process_isolation (updates : list update) (b : Z)
    (t : gmap Z (list N)) :
  Forall (fun upd => update_user upd <> b) updates ->
  process updates t !! b = t !! b.
Proof.
  unfold process. intros Hall. revert t.
  induction Hall as [|upd updates Hupd _ IH]; intros t; [done|].
  simpl. rewrite IH.
  destruct upd as [u name|u name|u name msg ok post]; simpl in *.
  - now apply clear_entry_other.
  - now apply clear_entry_other.
  - pose proof (handle_message_other ok post t u b msg Hupd) as H.
    now destruct (handle_message ok post u msg t).
Qed.

Lemma process_isolation_witness :
  process [TextMessage 1 (py "Ann") (py "Hello") true
             (fun _ => Raised (Exception false true));
           StartCommand 3 (py "Bob");
           ClearCommand 1 (py "Ann")]
          {[ 2%Z := py "kept" ]} !! 2%Z
  = Some (py "kept").
Proof.
  rewrite process_isolation; [reflexivity|].
  repeat constructor; simpl; lia.
Defined.



(** X10. After [/start] or [/clear] the conversation begins anew: whatever
    the table held, the next clean message of the user is posted with the
    system message alone before it. *)
Theorem cleared_history_is_forgotten (post : payload -> outcome)
    (t : gmap Z (list N)) (u : Z) (user_name user_message : list N) :
  clean_text user_message ->
  let anew :=
    Some (Payload MODEL_NAME
            [system_message; Message (py "user") user_message]
            (7 # 10)%Q (-1)%Z false) in
  posted (fst (handle_message true post u user_message
                 (snd (start u user_name t)))) = anew
  /\ posted (fst (handle_message true post u user_message
                    (snd (clear_context_command u user_name t)))) = anew.
Proof.
  intros Hmsg.
  assert (llm_request (block_text (py "user") user_message)
          = Payload MODEL_NAME
              [system_message; Message (py "user") user_message]
              (7 # 10)%Q (-1)%Z false) as Hreq.
  { rewrite <- (app_nil_r (block_text _ _)).
    apply (llm_request_records [(py "user", user_message)]).
    constructor; [|done]. apply clean_text_record; [compute_done|done]. }
  split; rewrite handle_message_exchange; cbn [fst snd posted start
    clear_context_command]; rewrite clear_entry_empty; simpl app;
    now rewrite Hreq.
Qed.

Lemma cleared_history_is_forgotten_witness :
  let post := fun _ : payload => Returned (py "Hi") in
  let t : gmap Z (list N) :=
    {[ 42%Z := block_text (py "user") (py "My name is Ann") ]} in
  posted (fst (handle_message true post 42 (py "Who am I?")
                 (snd (clear_context_command 42 (py "Ann") t))))
  = Some (Payload MODEL_NAME
            [system_message; Message (py "user") (py "Who am I?")]
            (7 # 10)%Q (-1)%Z false).
Proof.
  intros post t.
  refine (proj2 (cleared_history_is_forgotten post t 42 (py "Ann")
                   (py "Who am I?") _)).
  repeat split; [done..|]. intros c [= <-]. reflexivity.
Defined.

Section Exchanges.

Implicit Types (records : list (list N * list N)).

Lemma exchanges_snoc_user (after_user : bool) records (m : list N) :
  exchanges after_user (records ++ [(py "user", m)])
  = exchanges after_user records.
Proof.
  revert after_user. induction records as [|rc records IH]; intros b.
  - cbn [app exchanges fst]. now rewrite bool_decide_eq_true_2.
  - cbn [app exchanges]. rewrite !IH. reflexivity.
Qed.

Lemma exchanges_snoc_pair (after_user : bool) records (m r : list N) :
  exchanges after_user (records ++ [(py "user", m); (py "assistant", r)])
  = exchanges after_user records.
Proof.
  revert after_user. induction records as [|rc records IH]; intros b.
  - cbn [app exchanges fst]. rewrite bool_decide_eq_true_2 by done.
    rewrite bool_decide_eq_false_2 by done.
    now rewrite bool_decide_eq_true_2.
  - cbn [app exchanges]. rewrite !IH. reflexivity.
Qed.

Lemma record_text_snoc records (rc : list N * list N) :
  concat (List.map record_text (records ++ [rc]))
  = concat (List.map record_text records) ++ block_text (fst rc) (snd rc).
Proof.
  rewrite map_app, concat_app.
  change (concat (List.map record_text [rc])) with (record_text rc ++ []).
  now rewrite app_nil_r.
Qed.

End Exchanges.

Section Conversation.

Variable u : Z.

Implicit Types (records : list (list N * list N)).

Lemma user_contents_app (l1 l2 : list message) :
  user_contents (l1 ++ l2) = user_contents l1 ++ user_contents l2.
Proof. unfold user_contents. now rewrite List.filter_app, map_app. Qed.

(** One update on a readable transcript: the transcript stays readable and
    gains the text sent by [u], if any, among its user messages. *)
Lemma dispatch_keeps_conversation (upd : update) (t : gmap Z (list N))
    records :
  default [] (t !! u) = concat (List.map record_text records) ->
  Forall round_trip_record records ->
  keeps_conversation u upd ->
  exists records',
    default [] (snd (dispatch upd t) !! u)
    = concat (List.map record_text records')
    /\ Forall round_trip_record records'
    /\ user_contents (List.map record_message records')
       = user_contents (List.map record_message records) ++ sent_by u upd.
Proof.
  intros Hentry Hrecords Hupd.
  destruct upd as [v name|v name|v name msg ok post]; simpl in Hupd.
  - exists records. simpl. rewrite clear_entry_other, app_nil_r by done.
    now repeat split.
  - exists records. simpl. rewrite clear_entry_other, app_nil_r by done.
    now repeat split.
  - assert (snd (dispatch (TextMessage v name msg ok post) t)
            = snd (handle_message ok post v msg t)) as ->.
    { simpl. now destruct (handle_message ok post v msg t). }
    simpl sent_by. destruct (decide (v = u)) as [->|Hne].
    + destruct (Hupd eq_refl) as [Hmsg Hpost].
      rewrite bool_decide_eq_true_2 by done.
      assert (round_trip_record (py "user", msg)) as Hu.
      { apply clean_text_record; [compute_done|done]. }
      assert (default [] (t !! u) ++ block_text (py "user") msg
              = concat (List.map record_text (records ++ [(py "user", msg)])))
        as Hcs by now rewrite Hentry, record_text_snoc.
      rewrite handle_message_entry, Hcs. cbn [from_option id].
      destruct ok.
      * set (r := snd (get_llm_response _ _ _)).
        exists ((records ++ [(py "user", msg)]) ++ [(py "assistant", r)]).
        split; [now rewrite (record_text_snoc _ (_, r))|]. split.
        -- repeat (apply Forall_app; split); try done; constructor; try done.
           apply clean_text_record; [compute_done|].
           now apply llm_response_clean.
        -- rewrite !map_app, !user_contents_app, <- app_assoc.
           reflexivity.
      * exists (records ++ [(py "user", msg)]).
        split; [done|]. split.
        -- apply Forall_app. split; [done|]. now constructor.
        -- rewrite map_app, user_contents_app. reflexivity.
    + rewrite bool_decide_eq_false_2 by done.
      exists records. rewrite handle_message_other, app_nil_r by done.
      now repeat split.
Qed.

Lemma process_keeps_conversation (updates : list update)
    (t : gmap Z (list N)) records :
  default [] (t !! u) = concat (List.map record_text records) ->
  Forall round_trip_record records ->
  Forall (keeps_conversation u) updates ->
  exists records',
    default [] (process updates t !! u)
    = concat (List.map record_text records')
    /\ Forall round_trip_record records'
    /\ user_contents (List.map record_message records')
       = user_contents (List.map record_message records)
         ++ concat (List.map (sent_by u) updates).
Proof.
  intros Hentry Hrecords Hall. revert t records Hentry Hrecords.
  induction Hall as [|upd updates Hupd _ IH]; intros t records He Hr.
  - exists records. simpl. rewrite app_nil_r. now repeat split.
  - destruct (dispatch_keeps_conversation upd t records He Hr Hupd)
      as (records1 & He1 & Hr1 & Hu1).
    destruct (IH _ _ He1 Hr1) as (records2 & He2 & Hr2 & Hu2).
    exists records2. split; [exact He2|]. split; [exact Hr2|].
    rewrite Hu2, Hu1, <- app_assoc. reflexivity.
Qed.

End Conversation.

(** X12. Nothing a user said is lost.  Starting with no entry for the
    user, over any sequence of updates in which the user sends clean text
    messages only and gets clean replies (other users doing what they
    like, the model failing or [send_action] raising at will), the user
    messages in the parsed transcript of the user are exactly the texts the
    user sent, in order. *)
Theorem conversation_is_kept (u : Z) (updates : list update)
    (t : gmap Z (list N)) :
  t !! u = None ->
  Forall (keeps_conversation u) updates ->
  user_contents
    (parse_context_to_messages (fst (get_context u (process updates t))))
  = concat (List.map (sent_by u) updates).
Proof.
  intros Hfresh Hall.
  destruct (process_keeps_conversation u updates t [])
    as (records & He & Hr & Hu); [now rewrite Hfresh|done..|].
  rewrite get_context_result, He, parse_transcript by done.
  exact Hu.
Qed.

Lemma conversation_is_kept_witness :
  user_contents
    (parse_context_to_messages
       (fst (get_context 1
          (process [TextMessage 1 (py "Ann") (py "Hello") true
                      (fun _ => Raised (Exception false true));
                    TextMessage 2 (py "Bob") [NL; NL] true
                      (fun _ => Returned []);
                    ClearCommand 2 (py "Bob");
                    TextMessage 1 (py "Ann") (py "Still there?") false
                      (fun _ => Raised (Exception false false))]
                   ∅))))
  = [py "Hello"; py "Still there?"].
Proof.
  assert (forall c d, c <> [] -> occurs [NL; NL] c = false ->
                      head c <> Some NL -> last c = Some d ->
                      isspace d = false -> clean_text c) as Hclean.
  { intros c d H1 H2 H3 H4 H5. repeat split; [done..|].
    intros d' Hd'. rewrite H4 in Hd'. now injection Hd' as <-. }
  apply (conversation_is_kept 1); [reflexivity|].
  repeat constructor; simpl; try lia; try discriminate.
  - now apply (Hclean _ 111).
  - now apply (Hclean _ 63).
Defined.

(** X13. A block with a plain header.  When the stripped block is
    ["role: "], a tag part without a newline and without a further
    ["role: "] in it, a newline and a remainder, the parser takes the tag
    part stripped of surrounding whitespace as the role, lets the block
    through exactly when that is [user] or [assistant], and gives the
    remainder as the content. *)
Theorem parse_block_plain_header (messages : list message)
    (block tag_part rest : list N) :
  strip block = py "role: " ++ tag_part ++ NL :: rest ->
  NL ∉ tag_part ->
  occurs (py "role: ") tag_part = false ->
  parse_block messages block
  = if bool_decide (strip tag_part ∈ recognized_roles)
    then messages ++ [Message (strip tag_part) rest]
    else messages.
Proof.
  intros Hs Hnl Hocc.
  rewrite (parse_block_at messages block (py "role: " ++ tag_part) rest).
  - rewrite startswith_app, role_tag_single_prefix by done.
    unfold role_tag_after_prefix. now rewrite drop_app_length.
  - now rewrite <- app_assoc.
  - apply not_elem_of_app. split; [compute_done|done].
Qed.

Lemma parse_block_plain_header_witness :
  parse_block [] (py "  role:   assistant " ++ [NL] ++ py " ok" ++ [NL])
  = [Message (py "assistant") (py " ok")].
Proof.
  apply (parse_block_plain_header []
           (py "  role:   assistant " ++ [NL] ++ py " ok" ++ [NL])
           (py "  assistant ") (py " ok")).
  - vm_compute. reflexivity.
  - compute_done.
  - reflexivity.
Defined.

Section CleanExchanges.

Variable u : Z.

Implicit Types (records : list (list N * list N)).

Lemma roles_and_contents_records records :
  roles_and_contents (List.map record_message records) = records.
Proof.
  unfold roles_and_contents. induction records as [|[r c] records IH].
  - reflexivity.
  - simpl. now rewrite IH.
Qed.

(** One update on a readable run of exchanges leaves a readable run of
    exchanges. *)
Lemma dispatch_keeps_exchanges (upd : update) (t : gmap Z (list N))
    records :
  default [] (t !! u) = concat (List.map record_text records) ->
  Forall round_trip_record records ->
  exchanges false records = true ->
  clean_update u upd ->
  exists records',
    default [] (snd (dispatch upd t) !! u)
    = concat (List.map record_text records')
    /\ Forall round_trip_record records'
    /\ exchanges false records' = true.
Proof.
  intros Hentry Hrecords Hex Hupd.
  assert (forall v, exists records',
            default [] (snd (clear_user_context v t) !! u)
            = concat (List.map record_text records')
            /\ Forall round_trip_record records'
            /\ exchanges false records' = true) as Hclear.
  { intros v. destruct (decide (v = u)) as [->|Hne].
    - exists []. rewrite clear_entry_empty. now repeat split.
    - exists records. rewrite clear_entry_other by done. now repeat split. }
  destruct upd as [v name|v name|v name msg ok post];
    [apply Hclear..|].
  assert (snd (dispatch (TextMessage v name msg ok post) t)
          = snd (handle_message ok post v msg t)) as ->.
  { simpl. now destruct (handle_message ok post v msg t). }
  destruct (decide (v = u)) as [->|Hne].
  - destruct (Hupd eq_refl) as [Hmsg Hpost].
    assert (round_trip_record (py "user", msg)) as Hu.
    { apply clean_text_record; [compute_done|done]. }
    assert (default [] (t !! u) ++ block_text (py "user") msg
            = concat (List.map record_text (records ++ [(py "user", msg)])))
      as Hcs by now rewrite Hentry, record_text_snoc.
    rewrite handle_message_entry, Hcs. cbn [from_option id].
    destruct ok.
    + set (r := snd (get_llm_response _ _ _)).
      exists (records ++ [(py "user", msg); (py "assistant", r)]).
      split; [|split].
      * change [(py "user", msg); (py "assistant", r)]
          with ([(py "user", msg)] ++ [(py "assistant", r)]).
        now rewrite app_assoc, (record_text_snoc _ (_, r)).
      * apply Forall_app. split; [done|].
        constructor; [done|]. constructor; [|done].
        apply clean_text_record; [compute_done|].
        now apply llm_response_clean.
      * now rewrite exchanges_snoc_pair.
    + exists (records ++ [(py "user", msg)]).
      split; [done|]. split.
      * apply Forall_app. split; [done|]. now constructor.
      * now rewrite exchanges_snoc_user.
  - exists records. rewrite handle_message_other by done.
    now repeat split.
Qed.

Lemma process_keeps_exchanges (updates : list update)
    (t : gmap Z (list N)) records :
  default [] (t !! u) = concat (List.map record_text records) ->
  Forall round_trip_record records ->
  exchanges false records = true ->
  Forall (clean_update u) updates ->
  exists records',
    default [] (process updates t !! u)
    = concat (List.map record_text records')
    /\ Forall round_trip_record records'
    /\ exchanges false records' = true.
Proof.
  intros Hentry Hrecords Hex Hall. revert t records Hentry Hrecords Hex.
  induction Hall as [|upd updates Hupd _ IH]; intros t records He Hr Hx.
  - now exists records.
  - destruct (dispatch_keeps_exchanges upd t records He Hr Hx Hupd)
      as (records1 & He1 & Hr1 & Hx1).
    apply (IH _ _ He1 Hr1 Hx1).
Qed.

End CleanExchanges.

(** X11. In a clean conversation the turns alternate as they were made.
    Starting with no entry for the user, over any sequence of updates in
    which the user's text messages are clean and get clean replies (the
    user's own [/start] and [/clear], other users, a failing model and a
    raising [send_action] all allowed), the parsed transcript of the user
    is a run of exchanges: every message has the role [user] or
    [assistant], and every [assistant] message comes right behind a [user]
    message. *)
Theorem clean_transcript_alternates (u : Z) (updates : list update)
    (t : gmap Z (list N)) :
  t !! u = None ->
  Forall (clean_update u) updates ->
  exchanges false
    (roles_and_contents
       (parse_context_to_messages (fst (get_context u (process updates t)))))
  = true.
Proof.
  intros Hfresh Hall.
  destruct (process_keeps_exchanges u updates t [])
    as (records & He & Hr & Hx); [now rewrite Hfresh|done..|].
  rewrite get_context_result, He, parse_transcript by done.
  now rewrite roles_and_contents_records.
Qed.

Lemma clean_transcript_alternates_witness :
  exchanges false
    (roles_and_contents
       (parse_context_to_messages
          (fst (get_context 1
             (process [TextMessage 1 (py "Ann") (py "Hello") true
                         (fun _ => Returned (py "Hi"));
                       ClearCommand 1 (py "Ann");
                       TextMessage 2 (py "Bob") [NL; NL] true
                         (fun _ => Returned []);
                       TextMessage 1 (py "Ann") (py "Again") false
                         (fun _ => Returned (py "unused"));
                       TextMessage 1 (py "Ann") (py "Still there?") true
                         (fun _ => Raised (Exception true true))]
                      ∅)))))
  = true.
Proof.
  assert (forall c d, c <> [] -> occurs [NL; NL] c = false ->
                      head c <> Some NL -> last c = Some d ->
                      isspace d = false -> clean_text c) as Hclean.
  { intros c d H1 H2 H3 H4 H5. repeat split; [done..|].
    intros d' Hd'. rewrite H4 in Hd'. now injection Hd' as <-. }
  apply (clean_transcript_alternates 1); [reflexivity|].
  repeat first [apply List.Forall_nil | apply List.Forall_cons];
    cbn [clean_update].
  - intros _. split; [now apply (Hclean _ 111)|].
    intros p r [= <-]. now apply (Hclean _ 105).
  - exact I.
  - intros H. discriminate H.
  - intros _. split; [now apply (Hclean _ 110)|].
    intros p r [= <-]. now apply (Hclean _ 100).
  - intros _. split; [now apply (Hclean _ 63)|].
    intros p r H. discriminate H.
Defined.
